(** * cstorage: an LRU key-value cache with TTL, embedded from cstorage.go

    The Go program keeps its entries in heap-allocated [node]s that are
    shared between a hash table (key to node pointer) and a doubly linked
    list threaded through the nodes themselves ([prev]/[next]).  The
    embedding keeps that shape: nodes live in an explicit heap indexed by
    addresses, pointers are optional addresses ([None] is Go's [nil]), and
    every method is a computation in a small state-and-failure monad whose
    failures are the ones the Go runtime has (a nil dereference panics, a
    [Lock] on a held mutex blocks). *)

From Stdlib Require Import ZArith Lia.
From stdpp Require Import strings.
From stdpp Require Import base option numbers list fin_maps gmap.

Open Scope Z_scope.

(** ** Data model *)

(** Addresses of heap-allocated nodes; a [*node] is [nil] or an address. *)
Abbreviation addr := positive.
Abbreviation ptr := (option positive).

(** [time.Time] readings and [time.Duration]s, both in nanoseconds. *)
Abbreviation Time := Z.
Abbreviation Duration := Z.

(** [int64] arithmetic wraps around. *)
Definition wrap64 (z : Z) : Z := (z + 2 ^ 63) `mod` 2 ^ 64 - 2 ^ 63.

Definition int64_range (z : Z) : Prop := - 2 ^ 63 ≤ z < 2 ^ 63.

Record CStorageConfig := {
  Ttl : Duration;
  Capacity : Z
}.

Record node := {
  key : string;
  data : list Byte.byte;
  ttl : Time;
  prev : ptr;
  next : ptr
}.

(** The [CStorage] struct, together with the part of the Go heap that its
    pointers reach ([heap]).  [mutex] is [true] while the mutex is held. *)
Record CStorage := {
  heap : gmap positive node;
  table : gmap string positive;
  head : ptr;
  tail : ptr;
  size : Z;
  mutex : bool;
  config : CStorageConfig
}.

Definition set_data (d : list Byte.byte) (n : node) : node :=
  {| key := key n; data := d; ttl := ttl n; prev := prev n; next := next n |}.
Definition set_ttl (t : Time) (n : node) : node :=
  {| key := key n; data := data n; ttl := t; prev := prev n; next := next n |}.
Definition set_prev (p : ptr) (n : node) : node :=
  {| key := key n; data := data n; ttl := ttl n; prev := p; next := next n |}.
Definition set_next (p : ptr) (n : node) : node :=
  {| key := key n; data := data n; ttl := ttl n; prev := prev n; next := p |}.

Definition with_heap (h : gmap positive node) (s : CStorage) : CStorage :=
  {| heap := h; table := table s; head := head s; tail := tail s;
     size := size s; mutex := mutex s; config := config s |}.
Definition with_table (t : gmap string positive) (s : CStorage) : CStorage :=
  {| heap := heap s; table := t; head := head s; tail := tail s;
     size := size s; mutex := mutex s; config := config s |}.
Definition with_head (p : ptr) (s : CStorage) : CStorage :=
  {| heap := heap s; table := table s; head := p; tail := tail s;
     size := size s; mutex := mutex s; config := config s |}.
Definition with_tail (p : ptr) (s : CStorage) : CStorage :=
  {| heap := heap s; table := table s; head := head s; tail := p;
     size := size s; mutex := mutex s; config := config s |}.
Definition with_size (z : Z) (s : CStorage) : CStorage :=
  {| heap := heap s; table := table s; head := head s; tail := tail s;
     size := z; mutex := mutex s; config := config s |}.
Definition with_mutex (b : bool) (s : CStorage) : CStorage :=
  {| heap := heap s; table := table s; head := head s; tail := tail s;
     size := size s; mutex := b; config := config s |}.

(** ** The monad of method bodies *)

Inductive outcome (A : Type) : Type :=
  | Done (a : A) (s : CStorage)  (* returned [a], leaving the engine in [s] *)
  | Panic                        (* runtime panic: nil pointer dereference *)
  | Blocked                      (* [Lock] on a mutex that is already held *)
  | Dangling                     (* a non-nil pointer outside [heap] *)
  | OutOfFuel.                   (* a [for] loop outran the given bound *)
Arguments Done {A} a s.
Arguments Panic {A}.
Arguments Blocked {A}.
Arguments Dangling {A}.
Arguments OutOfFuel {A}.

Definition M (A : Type) : Type := CStorage → outcome A.

Definition ret {A} (a : A) : M A := λ s, Done a s.

Definition bind {A B} (m : M A) (f : A → M B) : M B := λ s,
  match m s with
  | Done a s' => f a s'
  | Panic => Panic
  | Blocked => Blocked
  | Dangling => Dangling
  | OutOfFuel => OutOfFuel
  end.

Declare Scope cs_scope.
Delimit Scope cs_scope with cs.
Bind Scope cs_scope with M.
Notation "x ← y ; z" := (bind y (λ x, z))
  (at level 20, y at level 100, z at level 200, only parsing) : cs_scope.
Notation "y ;; z" := (bind y (λ _, z))
  (at level 100, z at level 200, only parsing, right associativity) : cs_scope.

(** Reading and writing the fields of [s]. *)
Definition gets {A} (f : CStorage → A) : M A := λ s, Done (f s) s.
Definition modify (f : CStorage → CStorage) : M unit := λ s, Done tt (f s).

(** [p.field] as an r-value: dereferencing [nil] panics. *)
Definition deref (p : ptr) : M node := λ s,
  match p with
  | None => Panic
  | Some a =>
      match heap s !! a with
      | Some nd => Done nd s
      | None => Dangling
      end
  end.

(** [p.field = v]: again a panic on [nil]. *)
Definition assign (p : ptr) (f : node → node) : M unit := λ s,
  match p with
  | None => Panic
  | Some a =>
      match heap s !! a with
      | Some nd => Done tt (with_heap (<[a := f nd]> (heap s)) s)
      | None => Dangling
      end
  end.

(** [&node{...}]: a node at an address not in use. *)
Definition fresh_addr (h : gmap positive node) : positive :=
  Pos.succ (map_fold (λ a _ m, Pos.max a m) 1%positive h).

Definition alloc (nd : node) : M ptr := λ s,
  let a := fresh_addr (heap s) in
  Done (Some a) (with_heap (<[a := nd]> (heap s)) s).

(** [s.mutex.Lock()] and [s.mutex.Unlock()]; Go's mutex is not reentrant, and
    unlocking a mutex that is not held is a fatal error. *)
Definition Lock : M unit := λ s,
  if mutex s then Blocked else Done tt (with_mutex true s).
Definition Unlock : M unit := λ s,
  if mutex s then Done tt (with_mutex false s) else Panic.

(** [s.mutex.Lock(); defer s.mutex.Unlock(); body]. *)
Definition locked {A} (body : M A) : M A :=
  (Lock ;; r ← body ; Unlock ;; ret r)%cs.

Definition out_of_fuel {A} : M A := λ _, OutOfFuel.

Definition is_nil (p : ptr) : bool := bool_decide (p = None).
Definition ptr_eq (p q : ptr) : bool := bool_decide (p = q).

(** ** The methods of [CStorage] *)

Definition empty_storage (cfg : CStorageConfig) : CStorage :=
  {| heap := ∅; table := ∅; head := None; tail := None; size := 0;
     mutex := false; config := cfg |}.

(** [New] returns a [*CStorage]; it is [&CStorage{...}], so never [nil]. *)
Definition New (cfg : CStorageConfig) : option CStorage :=
  Some (empty_storage cfg).

(** [setHead]: move [n] to the head of the linked list. *)
Definition setHead (n : ptr) : M unit :=
  (if is_nil n then ret tt else
   h ← gets head ;
   if is_nil h then
     modify (with_head n) ;;
     modify (with_tail n)
   else if ptr_eq h n then ret tt else
   t ← gets tail ;
   if ptr_eq t n then
     tn ← deref t ;
     modify (with_tail (prev tn)) ;;          (* s.tail = s.tail.prev *)
     t' ← gets tail ;
     assign t' (set_next None) ;;             (* s.tail.next = nil *)
     assign n (set_prev None) ;;              (* n.prev = nil *)
     h1 ← gets head ;
     assign h1 (set_prev n) ;;                (* s.head.prev = n *)
     h2 ← gets head ;
     assign n (set_next h2) ;;                (* n.next = s.head *)
     modify (with_head n)                     (* s.head = n *)
   else
     nd ← deref n ;
     (if is_nil (prev nd) then ret tt else
        nd1 ← deref n ;
        assign (prev nd1) (set_next (next nd1))) ;;   (* n.prev.next = n.next *)
     nd2 ← deref n ;
     (if is_nil (next nd2) then ret tt else
        nd3 ← deref n ;
        assign (next nd3) (set_prev (prev nd3))) ;;   (* n.next.prev = n.prev *)
     assign n (set_prev None) ;;
     h1 ← gets head ;
     assign h1 (set_prev n) ;;
     h2 ← gets head ;
     assign n (set_next h2) ;;
     modify (with_head n))%cs.

(** The common tail of every branch of [evict]:
    [n.prev = nil; n.next = nil; delete(s.table, n.key)]. *)
Definition unlink_and_forget (n : ptr) : M unit :=
  (assign n (set_prev None) ;;
   assign n (set_next None) ;;
   nd ← deref n ;
   modify (λ s, with_table (delete (key nd) (table s)) s))%cs.

(** [evict]: take [n] out of the linked list and out of the hash table. *)
Definition evict (n : ptr) : M unit :=
  (h ← gets head ;
   t ← gets tail ;
   if ptr_eq h t && ptr_eq h n then
     modify (with_head None) ;;
     modify (with_tail None) ;;
     unlink_and_forget n
   else if ptr_eq h n then
     hn ← deref h ;
     modify (with_head (next hn)) ;;          (* s.head = s.head.next *)
     h' ← gets head ;
     assign h' (set_prev None) ;;             (* s.head.prev = nil *)
     unlink_and_forget n
   else if ptr_eq t n then
     tn ← deref t ;
     modify (with_tail (prev tn)) ;;          (* s.tail = s.tail.prev *)
     t' ← gets tail ;
     assign t' (set_next None) ;;             (* s.tail.next = nil *)
     unlink_and_forget n
   else
     nd ← deref n ;
     (if is_nil (prev nd) then ret tt else
        nd1 ← deref n ;
        assign (prev nd1) (set_next (next nd1))) ;;
     nd2 ← deref n ;
     (if is_nil (next nd2) then ret tt else
        nd3 ← deref n ;
        assign (next nd3) (set_prev (prev nd3))) ;;
     unlink_and_forget n)%cs.

(** [s.size--] and [s.size++] on an [int64]. *)
Definition size_dec : M unit := modify (λ s, with_size (wrap64 (size s - 1)) s).
Definition size_inc : M unit := modify (λ s, with_size (wrap64 (size s + 1)) s).

(** [Get]; [now] is the reading of [time.Now()] taken by the call.  A miss
    returns the nil slice, which is the empty list here. *)
Definition Get (now : Time) (k : string) : M (list Byte.byte * bool) :=
  locked
    (t ← gets table ;
     match t !! k with
     | None => ret ([], false)
     | Some a =>
         nd ← deref (Some a) ;
         if ttl nd <? now then               (* n.ttl.Before(time.Now()) *)
           evict (Some a) ;;
           size_dec ;;
           ret ([], false)
         else
           ret (data nd, true)
     end)%cs.

(** [for s.size >= s.config.Capacity { s.evict(s.tail); s.size-- }],
    bounded by [fuel] iterations. *)
Fixpoint evict_while_full (fuel : nat) : M unit :=
  (sz ← gets size ;
   cap ← gets (λ s, Capacity (config s)) ;
   if cap <=? sz then
     match fuel with
     | O => out_of_fuel
     | S fuel' =>
         t ← gets tail ;
         evict t ;;
         size_dec ;;
         evict_while_full fuel'
     end
   else ret tt)%cs.

(** [Put]; [now] is the reading of [time.Now()], [fuel] bounds the
    eviction loop. *)
Definition Put (fuel : nat) (now : Time) (k : string) (d : list Byte.byte)
    : M bool :=
  locked
    (t ← gets table ;
     cfg ← gets config ;
     let expires := now + Ttl cfg in         (* time.Now().Add(s.config.Ttl) *)
     match t !! k with
     | Some a =>
         t1 ← gets table ;
         assign (t1 !! k) (set_data d) ;;    (* s.table[key].data = data *)
         t2 ← gets table ;
         assign (t2 !! k) (set_ttl expires) ;;
         setHead (Some a) ;;
         ret true
     | None =>
         evict_while_full fuel ;;
         newNode ← alloc {| key := k; data := d; ttl := expires;
                            prev := None; next := None |} ;
         match newNode with
         | Some a => modify (λ s, with_table (<[k := a]> (table s)) s)
         | None => ret tt
         end ;;
         setHead newNode ;;
         size_inc ;;
         ret false
     end)%cs.

(** [Delete]. *)
Definition Delete (k : string) : M bool :=
  locked
    (t ← gets table ;
     match t !! k with
     | None => ret false
     | Some a =>
         evict (Some a) ;;
         size_dec ;;
         ret true
     end)%cs.

(** [for s.head != nil { s.evict(s.tail) }], bounded by [fuel]. *)
Fixpoint evict_all (fuel : nat) : M unit :=
  (h ← gets head ;
   if is_nil h then ret tt else
     match fuel with
     | O => out_of_fuel
     | S fuel' =>
         t ← gets tail ;
         evict t ;;
         evict_all fuel'
     end)%cs.

(** [Clear]. *)
Definition Clear (fuel : nat) : M unit :=
  locked (evict_all fuel ;; modify (with_size 0))%cs.

(** [Size] and [Cap] read their field directly: no [Lock] in the source. *)
Definition Size : M Z := gets size.
Definition Cap : M Z := gets (λ s, Capacity (config s)).

(** The body of [RemoveExpired]'s [range] loop over the entries [kvs] of the
    table; the [i]-th iteration reads the clock as [clock i].  Each iteration
    deletes at most the entry it is visiting, so the loop meets exactly the
    entries the table had on entry, in an order Go leaves unspecified. *)
Fixpoint RemoveExpired_range (clock : nat → Time) (i : nat)
    (kvs : list (string * positive)) (count : Z) : M Z :=
  match kvs with
  | [] => ret count
  | (k, value) :: rest =>
      (nd ← deref (Some value) ;
       if ttl nd <? clock i then
         Delete k ;;
         RemoveExpired_range clock (S i) rest (wrap64 (count + 1))
       else
         RemoveExpired_range clock (S i) rest count)%cs
  end.

(** [RemoveExpired], visiting the table in the order [map_to_list] gives. *)
Definition RemoveExpired (clock : nat → Time) : M Z :=
  (t ← gets table ;
   RemoveExpired_range clock 0 (map_to_list t) 0)%cs.

(** ** The recency order and the well-formedness of an engine *)

(** The [(prev, next)] pair stored at address [a]. *)
Definition links (h : gmap positive node) (a : addr) : option (ptr * ptr) :=
  (λ nd, (prev nd, next nd)) <$> h !! a.

(** What the caller sees of a node: key, value and expiry. *)
Definition payload (h : gmap positive node) (a : addr)
    : option (string * list Byte.byte * Time) :=
  (λ nd, (key nd, data nd, ttl nd)) <$> h !! a.

Definition first_or (l : list addr) (d : ptr) : ptr :=
  match l with [] => d | a :: _ => Some a end.

Definition last_or (l : list addr) (d : ptr) : ptr :=
  match list.last l with Some a => Some a | None => d end.

(** [dll h p l nx]: the nodes at [l], in this order, form a doubly linked
    segment whose first node points back to [p] and whose last node points
    on to [nx]. *)
Fixpoint dll (h : gmap positive node) (p : ptr) (l : list addr) (nx : ptr)
    : Prop :=
  match l with
  | [] => True
  | a :: l' => links h a = Some (p, first_or l' nx) ∧ dll h (Some a) l' nx
  end.

(** The linked list of [s] holds exactly the nodes [l], head first. *)
Definition chain (s : CStorage) (l : list addr) : Prop :=
  NoDup l ∧ head s = hd_error l ∧ tail s = list.last l ∧ dll (heap s) None l None.

(** The hash table and the list hold the same nodes, each under its key. *)
Definition indexed (s : CStorage) (l : list addr) : Prop :=
  map_Forall (λ k a, a ∈ l ∧ key <$> heap s !! a = Some k) (table s) ∧
  Forall (λ a, (heap s !! a) ≫= (λ nd, table s !! key nd) = Some a) l.

(** [lru s l]: [s] is a consistent engine whose recency order is [l], most
    recently used first; [size] counts the nodes and, like the capacity, is
    an [int64]. *)
Definition lru (s : CStorage) (l : list addr) : Prop :=
  chain s l ∧ indexed s l ∧ size s = Z.of_nat (length l) ∧
  int64_range (size s) ∧ int64_range (Capacity (config s)).

(** The recency order read off the heap: follow [next] from [head]. *)
Fixpoint walk (fuel : nat) (h : gmap positive node) (p : ptr) : list addr :=
  match fuel, p with
  | S fuel', Some a =>
      a :: match h !! a with
           | Some nd => walk fuel' h (next nd)
           | None => []
           end
  | _, _ => []
  end.

Definition order (s : CStorage) : list addr :=
  walk (base.size (heap s)) (heap s) (head s).

(** The keys in recency order. *)
Definition key_order (s : CStorage) : list string :=
  omap (λ a, key <$> heap s !! a) (order s).

(** An engine between two calls: consistent, and the mutex is free. *)
Definition WF (s : CStorage) : Prop := lru s (order s) ∧ mutex s = false.

#[global] Instance dll_dec h p l nx : Decision (dll h p l nx).
Proof. revert p. induction l as [|a l IH]; intros p; simpl; apply _. Defined.

#[global] Instance int64_range_dec z : Decision (int64_range z).
Proof. unfold int64_range. apply _. Defined.

#[global] Instance chain_dec s l : Decision (chain s l).
Proof. unfold chain. apply _. Defined.

#[global] Instance indexed_dec s l : Decision (indexed s l).
Proof. unfold indexed. apply _. Defined.

#[global] Instance lru_dec s l : Decision (lru s l).
Proof. unfold lru. apply _. Defined.

#[global] Instance WF_dec s : Decision (WF s).
Proof. unfold WF. apply _. Defined.

(** ** Reasoning about method bodies *)

(** [wp m s Q]: from [s], [m] returns, and its result and final state
    satisfy [Q]. *)
Definition wp {A} (m : M A) (s : CStorage) (Q : A → CStorage → Prop) : Prop :=
  match m s with
  | Done a s' => Q a s'
  | _ => False
  end.

(** [h'] is [h] with the links of [b] set to [pn] and nothing else touched. *)
Definition relinked (h h' : gmap positive node) (b : addr) (pn : ptr * ptr)
    : Prop :=
  links h' b = Some pn ∧ (∀ c, c ≠ b → h' !! c = h !! c) ∧
  payload h' b = payload h b.

Definition same_payload (h h' : gmap positive node) : Prop :=
  ∀ c, payload h' c = payload h c.

(** Everything of [s] that [setHead] and [evict] leave alone. *)
Definition same_frame (s s' : CStorage) : Prop :=
  same_payload (heap s) (heap s') ∧ size s' = size s ∧
  mutex s' = mutex s ∧ config s' = config s.

(** ** Vocabulary of the statements *)

(** What [evict(n); s.size--] leaves behind when [n] sits between [l1] and
    [l2] and was indexed under [k]. *)
Definition removed (s : CStorage) (l1 l2 : list addr) (k : string)
    (s' : CStorage) : Prop :=
  lru s' (l1 ++ l2) ∧ same_payload (heap s) (heap s') ∧
  config s' = config s ∧ size s' = size s - 1 ∧
  table s' = delete k (table s).

(** [n.ttl.Before(now)] for the node at [a]. *)
Definition is_expired (h : gmap positive node) (now : Time) (a : addr) : bool :=
  match h !! a with
  | Some nd => ttl nd <? now
  | None => false
  end.

(** The nodes a sweep over [kvs] finds expired, the [j]-th entry being
    compared with the clock reading [clock (i + j)]. *)
Fixpoint swept (h : gmap positive node) (clock : nat → Time) (i : nat)
    (kvs : list (string * positive)) : list addr :=
  match kvs with
  | [] => []
  | (_, a) :: rest =>
      if is_expired h (clock i) a then a :: swept h clock (S i) rest
      else swept h clock (S i) rest
  end.

(** What holds of an engine between two calls of its public methods. *)
Definition steady (s : CStorage) : Prop :=
  WF s ∧ size s ≤ Z.max 0 (Capacity (config s)).

(** ** Runs of the public methods *)

(** One call of a public method, with the clock readings it takes. *)
Inductive op : Type :=
  | OpGet (now : Time) (k : string)
  | OpPut (fuel : nat) (now : Time) (k : string) (d : list Byte.byte)
  | OpDelete (k : string)
  | OpClear (fuel : nat)
  | OpSize
  | OpCap
  | OpRemoveExpired (clock : nat → Time).

Definition exec_op (o : op) : M unit :=
  match o with
  | OpGet now k => bind (Get now k) (λ _, ret tt)
  | OpPut fuel now k d => bind (Put fuel now k d) (λ _, ret tt)
  | OpDelete k => bind (Delete k) (λ _, ret tt)
  | OpClear fuel => Clear fuel
  | OpSize => bind Size (λ _, ret tt)
  | OpCap => bind Cap (λ _, ret tt)
  | OpRemoveExpired clock => bind (RemoveExpired clock) (λ _, ret tt)
  end.

Fixpoint exec_ops (os : list op) : M unit :=
  match os with
  | [] => ret tt
  | o :: os' => bind (exec_op o) (λ _, exec_ops os')
  end.

(** The [Put] calls of a batch of writes, each with fuel for one eviction. *)
Definition put_ops (ps : list (Time * string * list Byte.byte)) : list op :=
  (λ p, OpPut 1 p.1.1 p.1.2 p.2) <$> ps.

Definition put_keys (ps : list (Time * string * list Byte.byte))
    : list string :=
  (λ p, p.1.2) <$> ps.

(** ** Sample engines *)

(** The state a call leaves behind (the state it started from if it failed). *)
Definition after {A} (m : M A) (s : CStorage) : CStorage :=
  match m s with
  | Done _ s' => s'
  | _ => s
  end.

Definition demo_cfg : CStorageConfig := {| Ttl := 100; Capacity := 2 |}.

(** Capacity 2, TTL 100: ["a"] written at time 0, then ["b"] at time 1. *)
Definition demo_a : CStorage :=
  after (Put 1 0 "a" [Byte.x01]) (empty_storage demo_cfg).
Definition demo_ab : CStorage :=
  after (Put 1 1 "b" [Byte.x02]) demo_a.

Definition zero_cfg : CStorageConfig := {| Ttl := 100; Capacity := 0 |}.

(** [demo_ab] while another goroutine holds the mutex. *)
Definition demo_held : CStorage := with_mutex true demo_ab.

(** [demo_ab] with a node for ["c"] allocated and not yet on the list. *)
Definition demo_ab_spare : CStorage :=
  after (alloc {| key := "c"; data := []; ttl := 0;
                  prev := None; next := None |}) demo_ab.

(** ** Rules for [wp] *)

Section wp_rules.
Context {A B : Type}.
Implicit Types (s : CStorage) (h : gmap positive node).

Lemma wp_ret (a : A) s (Q : A → CStorage → Prop) : Q a s → wp (ret a) s Q.
Proof. done. Qed.

Lemma wp_bind (m : M A) (f : A → M B) s (Q : B → CStorage → Prop) :
  wp m s (λ a s', wp (f a) s' Q) → wp (bind m f) s Q.
Proof. unfold wp, bind. by destruct (m s). Qed.

Lemma wp_gets (f : CStorage → A) s (Q : A → CStorage → Prop) :
  Q (f s) s → wp (gets f) s Q.
Proof. done. Qed.

Lemma wp_mono (m : M A) s (Q Q' : A → CStorage → Prop) :
  wp m s Q → (∀ a s', Q a s' → Q' a s') → wp m s Q'.
Proof. unfold wp. intros H HQ. destruct (m s); [by apply HQ|done..]. Qed.

Lemma wp_Done (m : M A) s (Q : A → CStorage → Prop) :
  wp m s Q ↔ ∃ a s', m s = Done a s' ∧ Q a s'.
Proof.
  unfold wp. destruct (m s) as [a s'| | | |].
  - split; [eauto|]. by intros (? & ? & [= <- <-] & ?).
  - split; [done|]. by intros (? & ? & ? & ?).
  - split; [done|]. by intros (? & ? & ? & ?).
  - split; [done|]. by intros (? & ? & ? & ?).
  - split; [done|]. by intros (? & ? & ? & ?).
Qed.
End wp_rules.

Lemma wp_modify (f : CStorage → CStorage) s (Q : unit → CStorage → Prop) :
  Q tt (f s) → wp (modify f) s Q.
Proof. done. Qed.

Lemma links_Some h a p nx :
  links h a = Some (p, nx) ↔ ∃ nd, h !! a = Some nd ∧ prev nd = p ∧ next nd = nx.
Proof.
  unfold links. destruct (h !! a) as [nd|]; simpl.
  - split; [intros [= <- <-]; eauto | intros (? & [= <-] & <- & <-); done].
  - split; [done|]. by intros (? & ? & ?).
Qed.

Lemma wp_deref s b pn (Q : node → CStorage → Prop) :
  links (heap s) b = Some pn →
  (∀ nd, heap s !! b = Some nd → prev nd = pn.1 → next nd = pn.2 → Q nd s) →
  wp (deref (Some b)) s Q.
Proof.
  destruct pn as [p nx]. intros (nd & Hb & Hp & Hn)%links_Some HQ.
  unfold wp, deref. rewrite Hb. by apply HQ.
Qed.

Lemma relinked_insert h b nd nd' :
  h !! b = Some nd → key nd' = key nd → data nd' = data nd → ttl nd' = ttl nd →
  relinked h (<[b := nd']> h) b (prev nd', next nd').
Proof.
  intros Hb Hk Hd Ht. unfold relinked, links, payload.
  rewrite lookup_insert_eq, Hb. simpl. rewrite Hk, Hd, Ht.
  split_and!; [done| |done]. intros c Hc. by rewrite lookup_insert_ne.
Qed.

Lemma wp_set_prev s b v pn (Q : unit → CStorage → Prop) :
  links (heap s) b = Some pn →
  (∀ h', relinked (heap s) h' b (v, pn.2) → Q tt (with_heap h' s)) →
  wp (assign (Some b) (set_prev v)) s Q.
Proof.
  destruct pn as [p nx]. intros (nd & Hb & Hp & Hn)%links_Some HQ.
  unfold wp, assign. rewrite Hb. apply HQ. simpl. rewrite <-Hn.
  by apply (relinked_insert _ _ nd (set_prev v nd)).
Qed.

Lemma wp_set_next s b v pn (Q : unit → CStorage → Prop) :
  links (heap s) b = Some pn →
  (∀ h', relinked (heap s) h' b (pn.1, v) → Q tt (with_heap h' s)) →
  wp (assign (Some b) (set_next v)) s Q.
Proof.
  destruct pn as [p nx]. intros (nd & Hb & Hp & Hn)%links_Some HQ.
  unfold wp, assign. rewrite Hb. apply HQ. simpl. rewrite <-Hp.
  by apply (relinked_insert _ _ nd (set_next v nd)).
Qed.

(** ** Doubly linked segments *)

Lemma relinked_links_ne h h' b pn c :
  relinked h h' b pn → c ≠ b → links h' c = links h c.
Proof. intros (_ & Hne & _) Hc. unfold links. by rewrite Hne. Qed.

Lemma relinked_same_payload h h' b pn : relinked h h' b pn → same_payload h h'.
Proof.
  intros (_ & Hne & Hb) c. destruct (decide (c = b)) as [->|Hc]; [done|].
  unfold payload. by rewrite Hne.
Qed.

Lemma same_payload_refl h : same_payload h h.
Proof. done. Qed.

Lemma same_payload_trans h1 h2 h3 :
  same_payload h1 h2 → same_payload h2 h3 → same_payload h1 h3.
Proof. intros H12 H23 c. by rewrite H23, H12. Qed.

Lemma same_payload_key h h' c : same_payload h h' →
  key <$> h' !! c = key <$> h !! c.
Proof.
  intros Hp. specialize (Hp c). unfold payload in Hp.
  destruct (h' !! c), (h !! c); simplify_eq/=; congruence.
Qed.

Lemma dll_frame h h' p l nx :
  (∀ c, c ∈ l → links h' c = links h c) → dll h p l nx → dll h' p l nx.
Proof.
  revert p. induction l as [|a l IH]; intros p Hl; simpl; [done|].
  intros [Ha Hrest]. split.
  - rewrite Hl; [done|]. apply list_elem_of_here.
  - apply IH; [|done]. intros c Hc. apply Hl. by apply list_elem_of_further.
Qed.

Lemma dll_relinked h h' b pn p l nx :
  relinked h h' b pn → b ∉ l → dll h p l nx → dll h' p l nx.
Proof.
  intros Hr Hb. apply dll_frame. intros c Hc.
  eapply relinked_links_ne; [done|]. intros ->. done.
Qed.

Lemma last_or_cons a l d : last_or (a :: l) d = last_or l (Some a).
Proof.
  unfold last_or. destruct l as [|b l]; [done|].
  rewrite last_cons_cons. by destruct (list.last (b :: l)) eqn:E;
    [|apply last_None in E].
Qed.

Lemma last_or_snoc l a d : last_or (l ++ [a]) d = Some a.
Proof. unfold last_or. by rewrite last_snoc. Qed.

Lemma first_or_app l1 l2 d : first_or (l1 ++ l2) d = first_or l1 (first_or l2 d).
Proof. by destruct l1. Qed.

Lemma dll_app h p l1 l2 nx :
  dll h p (l1 ++ l2) nx ↔
  dll h p l1 (first_or l2 nx) ∧ dll h (last_or l1 p) l2 nx.
Proof.
  revert p. induction l1 as [|a l1 IH]; intros p; simpl.
  - unfold last_or. simpl. tauto.
  - rewrite IH, first_or_app, last_or_cons. tauto.
Qed.

Lemma dll_links h p l nx c :
  dll h p l nx → c ∈ l → is_Some (links h c).
Proof.
  revert p. induction l as [|a l IH]; intros p; simpl.
  - intros _ Hc. by apply elem_of_nil in Hc.
  - intros [Ha Hrest] [->|Hc]%elem_of_cons; [by eexists|]. by eapply IH.
Qed.

(** ** Symbolic execution of [evict] *)

Ltac wp_simpl :=
  cbn [heap table head tail size mutex config with_heap with_table with_head
       with_tail with_size with_mutex fst snd] in *.

Ltac wp_pure :=
  repeat (first
    [ apply wp_bind; first [apply wp_gets | apply wp_modify | apply wp_ret]
    | apply wp_gets | apply wp_modify | apply wp_ret ]; wp_simpl).

Lemma relinked_trans h h1 h2 b pn1 pn2 :
  relinked h h1 b pn1 → relinked h1 h2 b pn2 → relinked h h2 b pn2.
Proof.
  intros (_ & Hne1 & Hp1) (Hl & Hne2 & Hp2). split_and!; [done| |congruence].
  intros c Hc. rewrite Hne2, Hne1; done.
Qed.

Lemma payload_key h a k :
  key <$> h !! a = Some k ↔ ∃ d t, payload h a = Some (k, d, t).
Proof.
  unfold payload. destruct (h !! a) as [nd|]; simpl.
  - split; [intros [= <-]; eauto | intros (? & ? & [= <-]); done].
  - split; [done | intros (? & ? & ?); done].
Qed.

Lemma wp_unlink_and_forget s a pn (Q : unit → CStorage → Prop) :
  links (heap s) a = Some pn →
  (∀ h' k, relinked (heap s) h' a (None, None) →
     key <$> heap s !! a = Some k →
     Q tt (with_table (delete k (table s)) (with_heap h' s))) →
  wp (unlink_and_forget (Some a)) s Q.
Proof.
  intros Ha HQ. unfold unlink_and_forget.
  apply wp_bind. eapply wp_set_prev; [done|]. intros h1 Hr1; wp_simpl.
  apply wp_bind. eapply wp_set_next; [apply Hr1|]. intros h2 Hr2. wp_simpl.
  apply wp_bind. eapply wp_deref; [apply Hr2|]. intros nd Hnd _ _. simpl in Hnd. wp_simpl.
  apply wp_modify. wp_simpl.
  pose proof (relinked_trans _ _ _ _ _ _ Hr1 Hr2) as Hr.
  replace (with_heap h2 (with_heap h1 s)) with (with_heap h2 s) by done.
  apply HQ; [done|].
  rewrite <-(same_payload_key _ _ a (relinked_same_payload _ _ _ _ Hr)).
  by rewrite Hnd.
Qed.

Lemma NoDup_head_mid (l1 l2 : list positive) a :
  NoDup (l1 ++ a :: l2) → hd_error (l1 ++ a :: l2) = Some a → l1 = [].
Proof.
  destruct l1 as [|b l1]; [done|]. simpl. intros Hnd [= ->].
  apply NoDup_cons in Hnd as [Hnd _]. exfalso. apply Hnd.
  apply elem_of_app. right. apply list_elem_of_here.
Qed.

Lemma NoDup_last_mid (l1 l2 : list positive) a :
  NoDup (l1 ++ a :: l2) → list.last (l1 ++ a :: l2) = Some a → l2 = [].
Proof.
  intros Hnd Hl. destruct l2 as [|q l2]; [done|]. exfalso.
  rewrite last_app_cons, last_cons_cons in Hl.
  apply last_Some_elem_of in Hl.
  apply NoDup_app in Hnd as (_ & _ & Hnd). apply NoDup_cons in Hnd as [Hnd _].
  done.
Qed.

Lemma snoc_cases {A} (l : list A) : l = [] ∨ ∃ l' x, l = l' ++ [x].
Proof.
  destruct (list.last l) as [x|] eqn:E.
  - right. apply last_Some in E as [l' ->]. eauto.
  - left. by apply last_None.
Qed.

Lemma chain_intro s l :
  NoDup l → head s = hd_error l → tail s = list.last l →
  dll (heap s) None l None → chain s l.
Proof. done. Qed.

Lemma evict_chain s l1 a l2 :
  chain s (l1 ++ a :: l2) →
  wp (evict (Some a)) s (λ _ s',
    chain s' (l1 ++ l2) ∧ same_frame s s' ∧
    ∃ k, key <$> heap s !! a = Some k ∧ table s' = delete k (table s)).
Proof.
  destruct s as [h t hd tl sz mx cfg]. intros (Hnd & Hhd & Htl & Hd).
  wp_simpl. subst hd tl. unfold evict. wp_pure.
  apply dll_app in Hd as [Hd1 Hd2]. simpl in Hd1, Hd2. destruct Hd2 as [Ha Hd2].
  unfold ptr_eq.
  destruct l1 as [|b l1'].
  - (* [a] is the head *)
    simpl. rewrite (bool_decide_eq_true_2 (Some a = Some a)) by done.
    destruct l2 as [|q l2'].
    + (* and the only node *)
      simpl. rewrite bool_decide_eq_true_2 by done. simpl. wp_pure.
      eapply wp_unlink_and_forget; [done|]. intros h' k Hr Hk. wp_simpl.
      assert (same_payload h h') by by eapply relinked_same_payload.
      split; [apply chain_intro; by try constructor|split; [done|eauto]].
    + rewrite bool_decide_eq_false_2; last first.
      { intros Heq. symmetry in Heq.
        by apply (NoDup_last_mid [] (q :: l2') a) in Heq. }
      simpl. apply wp_bind. eapply wp_deref; [done|]. intros nd _ _ Hn.
      simpl in Hn. wp_pure. rewrite Hn. destruct Hd2 as [Hq Hd2].
      apply wp_bind. eapply wp_set_prev; [done|]. intros h1 Hr1; wp_simpl.
      apply NoDup_cons in Hnd as [Haq Hnd]. pose proof Hnd as [Hq2 _]%NoDup_cons.
      apply not_elem_of_cons in Haq as [Haq Hal2].
      eapply wp_unlink_and_forget.
      { wp_simpl. erewrite relinked_links_ne; done. }
      wp_simpl. intros h2 k Hr2 Hk.
      assert (dll h2 None (q :: l2') None) as Hdll.
      { split.
        - erewrite relinked_links_ne by done. apply Hr1.
        - eapply dll_relinked; [done|done|]. eapply dll_relinked; done. }
      assert (same_payload h h2) as Hsp.
      { eapply same_payload_trans; by eapply relinked_same_payload. }
      assert (key <$> h !! a = Some k) as Hk'.
      { by rewrite <-(same_payload_key _ _ a (relinked_same_payload _ _ _ _ Hr1)). }
      split; [by apply chain_intro|split; [done|eauto]].
  - simpl hd_error.
    assert (b ≠ a) as Hba.
    { intros ->. apply (NoDup_head_mid (a :: l1') l2 a) in Hnd; done. }
    rewrite (bool_decide_eq_false_2 (Some b = Some a)) by congruence.
    rewrite andb_false_r.
    destruct (snoc_cases (b :: l1')) as [?|(l0 & p & Hl0)]; [done|].
    assert (hd_error ((b :: l1') ++ l2) = Some b) as Hhd by done.
    rewrite Hl0 in *. clear Hl0 l1' Hba.
    rewrite last_or_snoc in Ha.
    assert (p ≠ a) as Hpa.
    { intros ->. rewrite <-(assoc (++)) in Hnd.
      apply NoDup_app in Hnd as (_ & _ & Hnd). apply NoDup_cons in Hnd as [Hnd _].
      apply Hnd, list_elem_of_here. }
    apply dll_app in Hd1 as [Hd0 Hp]. simpl in Hp. destruct Hp as [Hp _].
    assert (a ∉ l0 ++ [p]) as Hal.
    { apply NoDup_app in Hnd as (_ & Hnd & _). intros Hin. eapply Hnd; [done|].
      apply list_elem_of_here. }
    assert (p ∉ l0) as Hpl0.
    { apply NoDup_app in Hnd as (Hnd & _ & _).
      apply NoDup_app in Hnd as (_ & Hnd & _). intros Hin. eapply Hnd; [done|].
      apply list_elem_of_here. }
    destruct l2 as [|q l2'].
    + (* [a] is the tail *)
      rewrite last_snoc. rewrite bool_decide_eq_true_2 by done.
      apply wp_bind. eapply wp_deref; [done|]. intros nd _ Hpv _.
      simpl in Hpv. wp_pure. rewrite Hpv.
      apply wp_bind. eapply wp_set_next; [done|]. intros h1 Hr1; wp_simpl.
      eapply wp_unlink_and_forget.
      { wp_simpl. erewrite relinked_links_ne; done. }
      wp_simpl. intros h2 k Hr2 Hk. rewrite app_nil_r in *.
      assert (NoDup (l0 ++ [p])) by by apply NoDup_app in Hnd as (? & _ & _).
      assert (dll h2 None (l0 ++ [p]) None) as Hdll.
      { eapply dll_relinked; [done|done|]. apply dll_app. split.
        - eapply dll_relinked; done.
        - simpl. split; [|done]. apply Hr1. }
      assert (same_payload h h2) as Hsp.
      { eapply same_payload_trans; by eapply relinked_same_payload. }
      assert (key <$> h !! a = Some k) as Hk'.
      { by rewrite <-(same_payload_key _ _ a (relinked_same_payload _ _ _ _ Hr1)). }
      split; [apply chain_intro; wp_simpl; by rewrite ?last_snoc|split; [done|eauto]].
    + (* [a] is in the middle *)
      simpl in Ha.
      rewrite bool_decide_eq_false_2; last first.
      { intros Heq. by apply NoDup_last_mid in Heq. }
      apply wp_bind. eapply wp_deref; [done|]. intros nd _ Hpv Hnx.
      simpl in Hpv, Hnx. unfold is_nil. rewrite Hpv.
      rewrite bool_decide_eq_false_2 by done.
      apply wp_bind. apply wp_bind. eapply wp_deref; [done|].
      intros nd1 _ Hpv1 Hnx1. simpl in Hpv1, Hnx1. rewrite Hpv1, Hnx1.
      eapply wp_set_next; [done|]. intros h1 Hr1; wp_simpl.
      apply wp_bind. eapply wp_deref.
      { wp_simpl. erewrite relinked_links_ne; done. }
      intros nd2 _ _ Hnx2. simpl in Hnx2. rewrite Hnx2.
      rewrite bool_decide_eq_false_2 by done.
      apply wp_bind. apply wp_bind. eapply wp_deref.
      { wp_simpl. erewrite relinked_links_ne; done. }
      intros nd3 _ Hpv3 Hnx3. simpl in Hpv3, Hnx3. rewrite Hpv3, Hnx3.
      destruct Hd2 as [Hq Hd2].
      pose proof Hnd as Hnd'.
      apply NoDup_app in Hnd as (Hnd1 & Hnd12 & Hnd2).
      apply NoDup_cons in Hnd2 as [Haq Hnd2].
      assert (q ∉ l0 ++ [p]) as Hql.
      { intros Hin. eapply Hnd12; [done|].
        apply list_elem_of_further, list_elem_of_here. }
      assert (q ≠ p) as Hqp.
      { intros ->. apply Hql, elem_of_app. right. apply list_elem_of_here. }
      assert (a ≠ q) by (intros ->; apply Haq, list_elem_of_here).
      pose proof Hnd2 as [Hq2 _]%NoDup_cons.
      assert (p ∉ q :: l2') as Hpl2.
      { intros Hin. eapply (Hnd12 p).
        - apply elem_of_app. right. apply list_elem_of_here.
        - by apply list_elem_of_further. }
      eapply wp_set_prev.
      { wp_simpl. erewrite relinked_links_ne; done. }
      intros h2 Hr2. wp_simpl.
      eapply wp_unlink_and_forget.
      { wp_simpl. rewrite (relinked_links_ne _ _ _ _ a Hr2), (relinked_links_ne _ _ _ _ a Hr1) by done. done. }
      wp_simpl. intros h3 k Hr3 Hk.
      assert (NoDup ((l0 ++ [p]) ++ q :: l2')) as Hnd3.
      { apply NoDup_app. split_and!; [done| |done].
        intros x Hx1 Hx2. eapply Hnd12; [done|]. by apply list_elem_of_further. }
      assert (dll h3 None ((l0 ++ [p]) ++ q :: l2') None) as Hdll.
      { eapply dll_relinked; [done| |].
        { intros [?|?]%elem_of_app; [done|]. by apply Haq. }
        apply dll_app. split.
        - eapply dll_relinked; [done|done|]. apply dll_app. split.
          + eapply dll_relinked; done.
          + simpl. split; [|done]. apply Hr1.
        - rewrite last_or_snoc. split.
          + apply Hr2.
          + eapply dll_relinked; [done|done|]. eapply dll_relinked; [done| |done].
            intros Hin. apply Hpl2. by apply list_elem_of_further. }
      assert (same_payload h h3) as Hsp.
      { eapply same_payload_trans; [|by eapply relinked_same_payload].
        eapply same_payload_trans; by eapply relinked_same_payload. }
      assert (key <$> h !! a = Some k) as Hk'.
      { rewrite <-(same_payload_key _ _ a (relinked_same_payload _ _ _ _ Hr1)).
        by rewrite <-(same_payload_key _ _ a (relinked_same_payload _ _ _ _ Hr2)). }
      split; [apply chain_intro; wp_simpl;
              by rewrite ?last_app_cons, ?last_cons_cons|split; [done|eauto]].
Qed.

(** ** Symbolic execution of [setHead] *)

(** The last five statements of [setHead], shared by its two long branches:
    [n.prev = nil; s.head.prev = n; n.next = s.head; s.head = n]. *)
Lemma wp_push_front s a l pna (Q : unit → CStorage → Prop) :
  l ≠ [] → head s = hd_error l → NoDup l → a ∉ l →
  dll (heap s) None l None → links (heap s) a = Some pna →
  (∀ h', dll h' None (a :: l) None → same_payload (heap s) h' →
     Q tt (with_head (Some a) (with_heap h' s))) →
  wp (bind (assign (Some a) (set_prev None)) (λ _,
      bind (gets head) (λ h1,
      bind (assign h1 (set_prev (Some a))) (λ _,
      bind (gets head) (λ h2,
      bind (assign (Some a) (set_next h2)) (λ _,
      modify (with_head (Some a)))))))) s Q.
Proof.
  destruct s as [h t hd tl sz mx cfg]. wp_simpl.
  destruct l as [|b l']; [done|]. intros _ -> Hnd Hal [Hb Hd] Ha HQ.
  apply NoDup_cons in Hnd as [Hbl Hnd].
  apply not_elem_of_cons in Hal as [Hab Hal].
  apply wp_bind. eapply wp_set_prev; [done|]. intros h1 Hr1; wp_simpl.
  wp_pure. simpl hd_error.
  apply wp_bind. eapply wp_set_prev.
  { wp_simpl. erewrite relinked_links_ne; done. }
  intros h2 Hr2; wp_simpl. wp_pure.
  apply wp_bind. eapply wp_set_next.
  { wp_simpl. erewrite relinked_links_ne; [apply Hr1|done|done]. }
  intros h3 Hr3; wp_simpl. wp_pure.
  apply HQ.
  - split; [apply Hr3|]. split.
    + erewrite relinked_links_ne; [apply Hr2|done|done].
    + do 3 (eapply dll_relinked; [done|done|]). done.
  - eapply same_payload_trans; [|by eapply relinked_same_payload].
    eapply same_payload_trans; by eapply relinked_same_payload.
Qed.

Lemma setHead_chain_new s l a :
  chain s l → a ∉ l → links (heap s) a = Some (None, None) →
  wp (setHead (Some a)) s (λ _ s',
    chain s' (a :: l) ∧ same_frame s s' ∧ table s' = table s).
Proof.
  destruct s as [h t hd tl sz mx cfg]. intros (Hnd & Hhd & Htl & Hd) Hal Ha.
  wp_simpl. subst hd tl. unfold setHead, is_nil, ptr_eq.
  rewrite (bool_decide_eq_false_2 (Some a = None)) by done. wp_pure.
  destruct l as [|b l'].
  - simpl. wp_pure.
    split; [apply chain_intro; wp_simpl; try done|done].
    apply NoDup_singleton.
  - simpl hd_error. rewrite bool_decide_eq_false_2 by done.
    pose proof Hal as [Hab _]%not_elem_of_cons.
    rewrite bool_decide_eq_false_2 by congruence. wp_pure.
    rewrite bool_decide_eq_false_2; last first.
    { intros Heq%last_Some_elem_of. done. }
    apply wp_bind. eapply wp_deref; [done|]. intros nd _ Hpv Hnx.
    simpl in Hpv, Hnx. rewrite Hpv. rewrite bool_decide_eq_true_2 by done.
    wp_pure.
    apply wp_bind. eapply wp_deref; [done|]. intros nd2 _ _ Hnx2.
    simpl in Hnx2. rewrite Hnx2. rewrite bool_decide_eq_true_2 by done.
    wp_pure.
    eapply (wp_push_front _ a (b :: l')); [done|reflexivity|done|done|done|done|].
    wp_simpl. intros h' Hdll Hsp.
    split; [apply chain_intro; wp_simpl; try done|done].
    by apply NoDup_cons.
Qed.

Lemma setHead_chain_in s l1 a l2 :
  chain s (l1 ++ a :: l2) →
  wp (setHead (Some a)) s (λ _ s',
    chain s' (a :: l1 ++ l2) ∧ same_frame s s' ∧ table s' = table s).
Proof.
  destruct s as [h t hd tl sz mx cfg]. intros (Hnd & Hhd & Htl & Hd).
  wp_simpl. subst hd tl. unfold setHead, is_nil, ptr_eq.
  rewrite (bool_decide_eq_false_2 (Some a = None)) by done. wp_pure.
  destruct l1 as [|b l1'].
  - (* already the head *)
    simpl hd_error. rewrite bool_decide_eq_false_2 by done.
    rewrite bool_decide_eq_true_2 by done. wp_pure.
    split; [by apply chain_intro|done].
  - simpl hd_error. rewrite bool_decide_eq_false_2 by done.
    assert (b ≠ a) as Hba.
    { intros ->. apply (NoDup_head_mid (a :: l1') l2 a) in Hnd; done. }
    rewrite bool_decide_eq_false_2 by congruence. wp_pure.
    apply dll_app in Hd as [Hd1 Hd2]. destruct Hd2 as [Ha Hd2].
    destruct (snoc_cases (b :: l1')) as [?|(l0 & p & Hl0)]; [done|].
    assert (hd_error ((b :: l1') ++ l2) = Some b) as Hhd by done.
    rewrite Hl0 in *. clear Hl0 l1' Hba.
    rewrite last_or_snoc in Ha.
    assert (l0 ++ [p] ≠ []) as Hne by (by destruct l0).
    assert (hd_error (l0 ++ [p]) = Some b) as Hhd0.
    { destruct l0; simpl in *; congruence. }
    assert (p ≠ a) as Hpa.
    { intros ->. rewrite <-(assoc (++)) in Hnd.
      apply NoDup_app in Hnd as (_ & _ & Hnd). apply NoDup_cons in Hnd as [Hnd _].
      apply Hnd, list_elem_of_here. }
    apply dll_app in Hd1 as [Hd0 Hp]. simpl in Hp. destruct Hp as [Hp _].
    pose proof Hnd as (Hnd1 & Hnd12 & Hnd2)%NoDup_app.
    assert (a ∉ l0 ++ [p]) as Hal.
    { intros Hin. eapply Hnd12; [done|]. apply list_elem_of_here. }
    assert (p ∉ l0) as Hpl0.
    { apply NoDup_app in Hnd1 as (_ & Hnd1 & _). intros Hin.
      eapply Hnd1; [done|]. apply list_elem_of_here. }
    apply NoDup_cons in Hnd2 as [Hal2 Hnd2].
    destruct l2 as [|q l2'].
    + (* [a] is the tail *)
      rewrite last_snoc. rewrite bool_decide_eq_true_2 by done.
      apply wp_bind. eapply wp_deref; [done|]. intros nd _ Hpv _.
      simpl in Hpv. wp_pure. rewrite Hpv.
      apply wp_bind. eapply wp_set_next; [done|]. intros h1 Hr1; wp_simpl.
      assert (dll h1 None (l0 ++ [p]) None) as Hdll1.
      { apply dll_app. split.
        - eapply dll_relinked; done.
        - simpl. split; [|done]. apply Hr1. }
      eapply (wp_push_front _ a (l0 ++ [p])); wp_simpl;
        [done|done|done|done|done| |].
      { rewrite (relinked_links_ne _ _ _ _ a Hr1) by done. done. }
      intros h' Hdll Hsp. rewrite app_nil_r.
      assert (same_payload h h') as Hsp'.
      { eapply same_payload_trans; [by eapply relinked_same_payload|done]. }
      split; [apply chain_intro; wp_simpl|by split; [split_and!|]].
      * by apply NoDup_cons.
      * done.
      * by rewrite last_cons, last_snoc.
      * done.
    + (* [a] is in the middle *)
      rewrite bool_decide_eq_false_2; last first.
      { intros Heq. by apply NoDup_last_mid in Heq. }
      simpl in Ha.
      apply wp_bind. eapply wp_deref; [done|]. intros nd _ Hpv Hnx.
      simpl in Hpv, Hnx. rewrite Hpv.
      rewrite bool_decide_eq_false_2 by done.
      apply wp_bind. apply wp_bind. eapply wp_deref; [done|].
      intros nd1 _ Hpv1 Hnx1. simpl in Hpv1, Hnx1. rewrite Hpv1, Hnx1.
      eapply wp_set_next; [done|]. intros h1 Hr1; wp_simpl.
      apply wp_bind. eapply wp_deref.
      { wp_simpl. rewrite (relinked_links_ne _ _ _ _ a Hr1) by done. done. }
      intros nd2 _ _ Hnx2. simpl in Hnx2. rewrite Hnx2.
      rewrite bool_decide_eq_false_2 by done.
      apply wp_bind. apply wp_bind. eapply wp_deref.
      { wp_simpl. rewrite (relinked_links_ne _ _ _ _ a Hr1) by done. done. }
      intros nd3 _ Hpv3 Hnx3. simpl in Hpv3, Hnx3. rewrite Hpv3, Hnx3.
      destruct Hd2 as [Hq Hd2].
      assert (q ∉ l0 ++ [p]) as Hql.
      { intros Hin. eapply Hnd12; [done|].
        apply list_elem_of_further, list_elem_of_here. }
      assert (q ≠ p) as Hqp.
      { intros ->. apply Hql, elem_of_app. right. apply list_elem_of_here. }
      apply not_elem_of_cons in Hal2 as [Haq Hal2].
      pose proof Hnd2 as [Hq2 _]%NoDup_cons.
      assert (p ∉ q :: l2') as Hpl2.
      { intros Hin. eapply (Hnd12 p).
        - apply elem_of_app. right. apply list_elem_of_here.
        - by apply list_elem_of_further. }
      eapply wp_set_prev.
      { wp_simpl. rewrite (relinked_links_ne _ _ _ _ q Hr1) by done. done. }
      intros h2 Hr2; wp_simpl. wp_pure.
      assert (NoDup ((l0 ++ [p]) ++ q :: l2')) as Hnd3.
      { apply NoDup_app. split_and!; [done| |done].
        intros x Hx1 Hx2. eapply Hnd12; [done|]. by apply list_elem_of_further. }
      assert (dll h2 None ((l0 ++ [p]) ++ q :: l2') None) as Hdll2.
      { apply dll_app. split.
        - eapply dll_relinked; [done|done|]. apply dll_app. split.
          + eapply dll_relinked; done.
          + simpl. split; [|done]. apply Hr1.
        - rewrite last_or_snoc. split.
          + apply Hr2.
          + eapply dll_relinked; [done|done|]. eapply dll_relinked; [done| |done].
            intros Hin. apply Hpl2. by apply list_elem_of_further. }
      eapply (wp_push_front _ a ((l0 ++ [p]) ++ q :: l2')); wp_simpl.
      { by destruct l0. }
      { rewrite <-(assoc (++)). rewrite <-(assoc (++)) in Hhd. done. }
      { done. }
      { intros [?|[?|?]%elem_of_cons]%elem_of_app; done. }
      { done. }
      { rewrite (relinked_links_ne _ _ _ _ a Hr2), (relinked_links_ne _ _ _ _ a Hr1)
          by done. done. }
      intros h' Hdll Hsp.
      assert (same_payload h h') as Hsp'.
      { eapply same_payload_trans; [|done].
        eapply same_payload_trans; by eapply relinked_same_payload. }
      assert (a ∉ (l0 ++ [p]) ++ q :: l2') as Hal3.
      { intros [?|[?|?]%elem_of_cons]%elem_of_app; done. }
      split; [apply chain_intro; wp_simpl|by split; [split_and!|]].
      * by apply NoDup_cons.
      * done.
      * rewrite (last_app_cons (l0 ++ [p]) _ a), last_cons_cons.
        change (a :: (l0 ++ [p]) ++ q :: l2') with ((a :: l0 ++ [p]) ++ q :: l2').
        by rewrite last_app_cons.
      * done.
Qed.

(** ** Facts about the model's plumbing *)

Lemma wrap64_id z : int64_range z → wrap64 z = z.
Proof. unfold int64_range, wrap64. intros Hz. rewrite Z.mod_small; lia. Qed.

Lemma fresh_addr_spec (h : gmap positive node) : h !! fresh_addr h = None.
Proof.
  unfold fresh_addr.
  assert (∀ a, is_Some (h !! a) →
    (a ≤ map_fold (λ a _ m, Pos.max a m) 1 h)%positive) as Hmax.
  { apply (map_fold_weak_ind (λ b (m : gmap positive node),
      ∀ a, is_Some (m !! a) → (a ≤ b)%positive)).
    - intros a [? Ha]. by rewrite lookup_empty in Ha.
    - intros i x m r Hi IH a Ha. destruct (decide (a = i)) as [->|Hne].
      + lia.
      + rewrite lookup_insert_ne in Ha by done. specialize (IH a Ha). lia. }
  destruct (h !! Pos.succ _) eqn:E; [|done].
  specialize (Hmax _ (mk_is_Some _ _ E)). lia.
Qed.

Lemma first_or_hd_error (l : list positive) : first_or l None = hd_error l.
Proof. by destruct l. Qed.

Lemma walk_dll fuel h p l :
  dll h p l None → (length l ≤ fuel)%nat → walk fuel h (first_or l None) = l.
Proof.
  revert fuel p. induction l as [|a l IH]; intros fuel p Hd Hlen.
  - by destruct fuel.
  - destruct fuel as [|fuel]; [simpl in Hlen; lia|].
    destruct Hd as [(nd & Ha & _ & Hn)%links_Some Hd]. simpl.
    rewrite Ha, Hn. f_equal. eapply IH; [done|]. simpl in Hlen. lia.
Qed.

Lemma NoDup_length_le_heap (h : gmap positive node) (l : list positive) :
  NoDup l → (∀ a, a ∈ l → is_Some (h !! a)) → (length l ≤ base.size h)%nat.
Proof.
  intros Hnd Hin. rewrite <-(size_dom (D:=gset positive)).
  rewrite <-(size_list_to_set (C:=gset positive) l) by done.
  apply subseteq_size. intros a Ha. apply elem_of_list_to_set in Ha.
  by apply elem_of_dom, Hin.
Qed.

Lemma links_is_Some h a : is_Some (links h a) ↔ is_Some (h !! a).
Proof. unfold links. by rewrite fmap_is_Some. Qed.

Lemma chain_order s l : chain s l → order s = l.
Proof.
  intros (Hnd & Hhd & _ & Hd). unfold order.
  rewrite Hhd, <-first_or_hd_error. eapply walk_dll; [done|].
  apply NoDup_length_le_heap; [done|]. intros a Ha.
  by eapply links_is_Some, dll_links.
Qed.

Lemma chain_in_heap s l a : chain s l → a ∈ l → is_Some (heap s !! a).
Proof. intros (_ & _ & _ & Hd) Ha. by eapply links_is_Some, dll_links. Qed.

(** ** The table side of the invariant *)

Lemma indexed_lookup s l k a :
  indexed s l → table s !! k = Some a →
  a ∈ l ∧ key <$> heap s !! a = Some k.
Proof. intros [Hs _] Hk. by apply (Hs k a). Qed.

Lemma indexed_elem s l a :
  indexed s l → a ∈ l →
  ∃ k, key <$> heap s !! a = Some k ∧ table s !! k = Some a.
Proof.
  intros [_ Hc] Ha. rewrite Forall_forall in Hc. specialize (Hc a Ha).
  destruct (heap s !! a) as [nd|]; [|done]. simpl in *. eauto.
Qed.

Lemma indexed_intro s l :
  (∀ k a, table s !! k = Some a → a ∈ l ∧ key <$> heap s !! a = Some k) →
  (∀ a, a ∈ l → ∃ k, key <$> heap s !! a = Some k ∧ table s !! k = Some a) →
  indexed s l.
Proof.
  intros Hs Hc. split; [exact Hs|]. apply Forall_forall. intros a Ha.
  destruct (Hc a Ha) as (k & Hk & Ht).
  destruct (heap s !! a) as [nd|]; simplify_eq/=. done.
Qed.

Lemma indexed_size s l :
  NoDup l → indexed s l → base.size (table s) = length l.
Proof.
  intros Hnd Hi.
  assert (∀ k a, table s !! k = Some a → a ∈ l ∧ key <$> heap s !! a = Some k)
    as Hs by (intros; by eapply indexed_lookup).
  assert (∀ a, a ∈ l → ∃ k, key <$> heap s !! a = Some k ∧ table s !! k = Some a)
    as Hc by (intros; by eapply indexed_elem).
  clear Hi. generalize dependent (table s). intros t.
  revert t. induction Hnd as [|a l Ha Hnd IH]; intros t Hs Hc.
  - assert (t = ∅) as ->; [|done]. apply map_empty. intros k.
    destruct (t !! k) as [a|] eqn:E; [|done].
    destruct (Hs k a E) as [Hin _]. by apply elem_of_nil in Hin.
  - destruct (Hc a) as (k & Hk & Ht); [apply list_elem_of_here|].
    rewrite <-(insert_delete_id t k a) by done.
    rewrite map_size_insert_None by apply lookup_delete_eq.
    simpl. f_equal. apply IH.
    + intros k' b Hb. apply lookup_delete_Some in Hb as [Hne Hb].
      destruct (Hs k' b Hb) as [[->|Hin]%elem_of_cons Hkb]; [congruence|done].
    + intros b Hb. destruct (Hc b) as (k' & Hk' & Ht'); [by apply list_elem_of_further|].
      exists k'. split; [done|]. rewrite lookup_delete_ne; [done|].
      intros ->. congruence.
Qed.

Lemma indexed_same_keys s s' l l' :
  indexed s l → (∀ c, key <$> heap s' !! c = key <$> heap s !! c) →
  table s' = table s → (∀ x, x ∈ l ↔ x ∈ l') → indexed s' l'.
Proof.
  intros Hi Hk Ht Hl. apply indexed_intro.
  - intros k a Ha. rewrite Ht in Ha. rewrite Hk, <-Hl.
    by eapply indexed_lookup.
  - intros a Ha. rewrite Hk, Ht. eapply indexed_elem; [done|]. by apply Hl.
Qed.

Lemma indexed_delete s s' l1 a l2 k :
  NoDup (l1 ++ a :: l2) → indexed s (l1 ++ a :: l2) →
  (∀ c, key <$> heap s' !! c = key <$> heap s !! c) →
  key <$> heap s !! a = Some k → table s' = delete k (table s) →
  indexed s' (l1 ++ l2).
Proof.
  intros Hnd Hi Hk Ha Ht. apply indexed_intro.
  - intros k' b Hb. rewrite Ht in Hb. apply lookup_delete_Some in Hb as [Hne Hb].
    destruct (indexed_lookup _ _ _ _ Hi Hb) as [Hin Hkb]. rewrite Hk.
    split; [|done]. apply elem_of_app in Hin as [?|[->|?]%elem_of_cons];
      [apply elem_of_app; by left|congruence|apply elem_of_app; by right].
  - intros b Hb. destruct (indexed_elem s (l1 ++ a :: l2) b Hi) as (k' & Hk' & Ht').
    { apply elem_of_app in Hb as [?|?]; apply elem_of_app; [by left|].
      right. by apply list_elem_of_further. }
    exists k'. rewrite Hk, Ht. split; [done|]. rewrite lookup_delete_ne; [done|].
    intros Heq. subst k'.
    destruct (indexed_elem s (l1 ++ a :: l2) a Hi) as (k2 & Hk2 & Ht2).
    { apply elem_of_app. right. apply list_elem_of_here. }
    assert (k2 = k) as -> by congruence. assert (a = b) as -> by congruence.
    apply NoDup_app in Hnd as (_ & Hd & Hnd2). apply NoDup_cons in Hnd2 as [? _].
    apply elem_of_app in Hb as [Hb|Hb]; [|done].
    eapply Hd; [done|]. apply list_elem_of_here.
Qed.

(** ** The methods on a consistent engine *)

Lemma wp_locked {A} (body : M A) s (Q : A → CStorage → Prop) :
  mutex s = false →
  wp body (with_mutex true s)
    (λ r s', mutex s' = true ∧ Q r (with_mutex false s')) →
  wp (locked body) s Q.
Proof.
  intros Hm Hb. unfold locked. apply wp_bind.
  unfold wp at 1, Lock. rewrite Hm. apply wp_bind.
  eapply wp_mono; [exact Hb|]. intros r s' [Hm' HQ]. apply wp_bind.
  unfold wp at 1, Unlock. rewrite Hm'. by apply wp_ret.
Qed.

Lemma locked_blocked {A} (body : M A) s :
  mutex s = true → locked body s = Blocked.
Proof. intros Hm. unfold locked, bind, Lock. by rewrite Hm. Qed.

Lemma with_mutex_id s : mutex s = false → with_mutex false (with_mutex true s) = s.
Proof. destruct s. simpl. by intros ->. Qed.

Lemma with_mutex_twice b b' s : with_mutex b (with_mutex b' s) = with_mutex b s.
Proof. done. Qed.

Lemma lru_with_mutex b s l : lru s l ↔ lru (with_mutex b s) l.
Proof. done. Qed.

Lemma evict_lru s l1 a l2 :
  lru s (l1 ++ a :: l2) →
  wp (bind (evict (Some a)) (λ _, size_dec)) s (λ _ s',
    lru s' (l1 ++ l2) ∧ same_payload (heap s) (heap s') ∧
    mutex s' = mutex s ∧ config s' = config s ∧ size s' = size s - 1 ∧
    ∃ k, key <$> heap s !! a = Some k ∧ table s' = delete k (table s)).
Proof.
  intros (Hc & Hi & Hsz & Hr & Hcap). apply wp_bind.
  eapply wp_mono; [by apply evict_chain|].
  intros [] s1 (Hc1 & (Hsp & Hsz1 & Hm1 & Hcfg1) & k & Hk & Ht).
  apply wp_modify. wp_simpl.
  assert (size s = Z.of_nat (length l1) + 1 + Z.of_nat (length l2)) as Hlen.
  { rewrite Hsz, length_app. simpl. lia. }
  assert (wrap64 (size s1 - 1) = size s - 1) as Hw.
  { rewrite Hsz1. apply wrap64_id. unfold int64_range in *. lia. }
  rewrite Hw. split_and!; try done; [|eauto].
  split_and!; wp_simpl.
  - done.
  - eapply (indexed_delete s _ l1 a l2 k); wp_simpl; try done.
    + by destruct Hc.
    + intros c. by apply same_payload_key.
  - rewrite length_app. lia.
  - unfold int64_range in *. lia.
  - by rewrite Hcfg1.
Qed.

Lemma filter_all {A} (P : A → Prop) `{!∀ x, Decision (P x)} (l : list A) :
  (∀ x, x ∈ l → P x) → filter P l = l.
Proof.
  induction l as [|x l IH]; intros Hl; [done|].
  rewrite filter_cons_True by apply Hl, list_elem_of_here.
  f_equal. apply IH. intros y Hy. by apply Hl, list_elem_of_further.
Qed.

Lemma NoDup_filter_ne (l1 l2 : list positive) a :
  NoDup (l1 ++ a :: l2) → filter (λ b, b ≠ a) (l1 ++ a :: l2) = l1 ++ l2.
Proof.
  intros (Hnd1 & Hd & Hnd2)%NoDup_app. apply NoDup_cons in Hnd2 as [Ha2 _].
  rewrite filter_app, filter_cons_False by (intros ?; done).
  f_equal; apply filter_all.
  - intros x Hx ->. eapply Hd; [done|]. apply list_elem_of_here.
  - intros x Hx ->. done.
Qed.

(** *** [Get] *)

Lemma Get_miss s now k :
  mutex s = false → table s !! k = None → Get now k s = Done ([], false) s.
Proof.
  intros Hm Hk. unfold Get, locked, bind, Lock, gets, Unlock, ret.
  rewrite Hm. simpl. rewrite Hk. simpl. by rewrite with_mutex_id.
Qed.

Lemma Get_live s now k a nd :
  mutex s = false → table s !! k = Some a → heap s !! a = Some nd →
  now ≤ ttl nd → Get now k s = Done (data nd, true) s.
Proof.
  intros Hm Hk Ha Ht. unfold Get, locked, bind, Lock, gets, Unlock, ret, deref.
  rewrite Hm. simpl. rewrite Hk. simpl. rewrite Ha.
  destruct (ttl nd <? now) eqn:E; [apply Z.ltb_lt in E; lia|].
  simpl. by rewrite with_mutex_id.
Qed.

Lemma evict_removed s l1 a l2 k :
  lru s (l1 ++ a :: l2) → table s !! k = Some a →
  wp (bind (evict (Some a)) (λ _, size_dec)) s (λ _ s',
    removed s l1 l2 k s' ∧ mutex s' = mutex s).
Proof.
  intros Hl Hk. eapply wp_mono; [by apply evict_lru|].
  intros [] s' (Hl' & Hsp & Hm & Hc & Hsz & k1 & Hk1 & Ht). simpl.
  destruct Hl as (_ & Hi & _).
  destruct (indexed_lookup _ _ _ _ Hi Hk) as [_ Hka].
  assert (k1 = k) as -> by congruence. by split_and!.
Qed.

Lemma wp_bind_assoc {A B C} (m : M A) (f : A → M B) (g : B → M C) s Q :
  wp (bind (bind m f) g) s Q → wp (bind m (λ a, bind (f a) g)) s Q.
Proof. unfold wp, bind. by destruct (m s). Qed.

Lemma Get_expired s l1 a l2 now k nd :
  lru s (l1 ++ a :: l2) → mutex s = false →
  table s !! k = Some a → heap s !! a = Some nd → ttl nd < now →
  ∃ s', Get now k s = Done ([], false) s' ∧
        removed s l1 l2 k s' ∧ mutex s' = false.
Proof.
  intros Hl Hm Hk Ha Ht.
  assert (wp (Get now k) s (λ r s', r = ([], false) ∧
        removed s l1 l2 k s' ∧ mutex s' = false)) as Hwp.
  { unfold Get. apply wp_locked; [done|]. wp_pure. rewrite Hk.
    apply wp_bind. unfold wp at 1, deref. wp_simpl. rewrite Ha.
    apply Z.ltb_lt in Ht. rewrite Ht.
    apply wp_bind_assoc, wp_bind.
    eapply wp_mono; [by apply (evict_removed (with_mutex true s) l1 a l2 k)|].
    intros [] s' [Hr Hm']. by apply wp_ret. }
  apply wp_Done in Hwp as (r & s' & HG & -> & H). eauto.
Qed.

(** *** [Delete] *)

Lemma Delete_miss s k :
  mutex s = false → table s !! k = None → Delete k s = Done false s.
Proof.
  intros Hm Hk. unfold Delete, locked, bind, Lock, gets, Unlock, ret.
  rewrite Hm. simpl. rewrite Hk. simpl. by rewrite with_mutex_id.
Qed.

Lemma Delete_hit s l1 a l2 k :
  lru s (l1 ++ a :: l2) → mutex s = false → table s !! k = Some a →
  ∃ s', Delete k s = Done true s' ∧ removed s l1 l2 k s' ∧ mutex s' = false.
Proof.
  intros Hl Hm Hk.
  assert (wp (Delete k) s (λ r s', r = true ∧
        removed s l1 l2 k s' ∧ mutex s' = false)) as Hwp.
  { unfold Delete. apply wp_locked; [done|]. wp_pure. rewrite Hk.
    apply wp_bind_assoc, wp_bind.
    eapply wp_mono; [by apply (evict_removed (with_mutex true s) l1 a l2 k)|].
    intros [] s' [Hr Hm']. by apply wp_ret. }
  apply wp_Done in Hwp as (r & s' & HG & -> & H). eauto.
Qed.

(** *** [Put] on a key that is present *)

Lemma chain_same_links s s' l :
  chain s l → (∀ c, c ∈ l → links (heap s') c = links (heap s) c) →
  head s' = head s → tail s' = tail s → chain s' l.
Proof.
  intros (Hnd & Hh & Ht & Hd) Hl Hh' Ht'. apply chain_intro; try congruence.
  by eapply dll_frame.
Qed.

Lemma wp_assign_Some s a nd f (Q : unit → CStorage → Prop) :
  heap s !! a = Some nd → Q tt (with_heap (<[a := f nd]> (heap s)) s) →
  wp (assign (Some a) f) s Q.
Proof. intros Ha HQ. unfold wp, assign. by rewrite Ha. Qed.

Lemma Put_existing s l1 a l2 fuel now k d :
  lru s (l1 ++ a :: l2) → mutex s = false → table s !! k = Some a →
  ∃ s', Put fuel now k d s = Done true s' ∧
        lru s' (a :: l1 ++ l2) ∧ mutex s' = false ∧
        table s' = table s ∧ size s' = size s ∧ config s' = config s ∧
        payload (heap s') a = Some (k, d, now + Ttl (config s)) ∧
        ∀ b, b ≠ a → payload (heap s') b = payload (heap s) b.
Proof.
  intros Hl Hm Hk.
  enough (wp (Put fuel now k d) s (λ r s', r = true ∧
        lru s' (a :: l1 ++ l2) ∧ mutex s' = false ∧
        table s' = table s ∧ size s' = size s ∧ config s' = config s ∧
        payload (heap s') a = Some (k, d, now + Ttl (config s)) ∧
        ∀ b, b ≠ a → payload (heap s') b = payload (heap s) b)) as Hwp.
  { apply wp_Done in Hwp as (r & s' & HP & -> & H). eauto. }
  destruct Hl as (Hc & Hi & Hsz & Hr & Hcap).
  destruct (indexed_lookup _ _ _ _ Hi Hk) as [Hin Hka].
  destruct (heap s !! a) as [nd|] eqn:Ha; [|done]. simpl in Hka.
  injection Hka as Hka.
  unfold Put. apply wp_locked; [done|]. wp_pure. rewrite Hk. wp_pure.
  rewrite Hk.
  apply wp_bind. eapply wp_assign_Some; [exact Ha|]. wp_pure.
  rewrite Hk.
  apply wp_bind. eapply wp_assign_Some; [wp_simpl; apply lookup_insert_eq|].
  wp_simpl. rewrite insert_insert_eq.
  set (nd' := set_ttl (now + Ttl (config s)) (set_data d nd)).
  set (s2 := with_heap _ _).
  assert (∀ c, links (heap s2) c = links (heap s) c) as Hlinks.
  { intros c. unfold s2, links. wp_simpl.
    destruct (decide (c = a)) as [->|Hne].
    - by rewrite lookup_insert_eq, Ha.
    - by rewrite lookup_insert_ne. }
  assert (∀ c, key <$> heap s2 !! c = key <$> heap s !! c) as Hkeys.
  { intros c. unfold s2. wp_simpl.
    destruct (decide (c = a)) as [->|Hne].
    - by rewrite lookup_insert_eq, Ha.
    - by rewrite lookup_insert_ne. }
  assert (chain s2 (l1 ++ a :: l2)) as Hc2.
  { eapply chain_same_links; [exact Hc| |done|done]. intros c _. apply Hlinks. }
  apply wp_bind. eapply wp_mono; [by apply setHead_chain_in|].
  intros [] s3 (Hc3 & (Hsp & Hsz3 & Hm3 & Hcfg3) & Ht3). apply wp_ret.
  split; [done|]. split; [done|]. wp_simpl.
  assert (∀ x, x ∈ l1 ++ a :: l2 ↔ x ∈ a :: l1 ++ l2) as Hperm.
  { intros x. rewrite !elem_of_app, !elem_of_cons, elem_of_app. tauto. }
  split_and!; try done.
  - split_and!; wp_simpl; try done.
    + eapply (indexed_same_keys s); [done| |done|done].
      intros c. wp_simpl. rewrite (same_payload_key _ _ c Hsp). apply Hkeys.
    + rewrite Hsz3. unfold s2. wp_simpl. rewrite Hsz.
      rewrite !length_app. simpl. rewrite length_app. lia.
    + by rewrite Hsz3.
    + by rewrite Hcfg3.
  - rewrite Hsp. unfold s2, payload. wp_simpl. rewrite lookup_insert_eq.
    simpl. by rewrite Hka.
  - intros b Hb. rewrite Hsp. unfold s2, payload. wp_simpl.
    by rewrite lookup_insert_ne.
Qed.

(** *** [Put] on a new key *)

(** The eviction loop keeps the [cap - 1] most recently used nodes. *)
Lemma evict_while_full_spec fuel s l :
  lru s l → 1 ≤ Capacity (config s) →
  (length l - Z.to_nat (Capacity (config s) - 1) ≤ fuel)%nat →
  wp (evict_while_full fuel) s (λ _ s',
    lru s' (take (Z.to_nat (Capacity (config s) - 1)) l) ∧
    same_payload (heap s) (heap s') ∧ mutex s' = mutex s ∧
    config s' = config s ∧ table s' ⊆ table s).
Proof.
  revert s l. induction fuel as [|fuel IH]; intros s l Hl Hcap Hfuel.
  - simpl. wp_pure. pose proof Hl as (_ & _ & Hsz & _).
    destruct (Capacity (config s) <=? size s) eqn:E.
    { apply Z.leb_le in E. lia. }
    apply Z.leb_gt in E. apply wp_ret. rewrite take_ge by lia. done.
  - simpl. wp_pure. pose proof Hl as (Hc & _ & Hsz & _).
    destruct (Capacity (config s) <=? size s) eqn:E.
    + apply Z.leb_le in E.
      destruct (snoc_cases l) as [->|(l' & t & ->)]; [simpl in Hsz; lia|].
      wp_pure. destruct Hc as (_ & _ & -> & _). rewrite last_snoc.
      apply wp_bind_assoc, wp_bind.
      eapply wp_mono; [by apply (evict_lru s l' t [])|].
      intros [] s1 (Hl1 & Hsp & Hm1 & Hc1 & Hsz1 & k & Hk & Ht).
      rewrite app_nil_r in Hl1. rewrite length_app in Hsz, Hfuel.
      simpl in Hsz, Hfuel.
      eapply wp_mono; [apply (IH s1 l'); [done|by rewrite Hc1|rewrite Hc1; lia]|].
      intros [] s2 (Hl2 & Hsp2 & Hm2 & Hc2 & Ht2). rewrite Hc1 in *.
      rewrite take_app_le by lia.
      split_and!; [done|by eapply same_payload_trans|congruence|congruence|].
      etrans; [done|]. rewrite Ht. apply delete_subseteq.
    + apply Z.leb_gt in E. apply wp_ret. rewrite take_ge by lia. done.
Qed.

Lemma Put_new s l fuel now k d :
  lru s l → mutex s = false → table s !! k = None →
  1 ≤ Capacity (config s) →
  (length l - Z.to_nat (Capacity (config s) - 1) ≤ fuel)%nat →
  ∃ a s', Put fuel now k d s = Done false s' ∧
        lru s' (a :: take (Z.to_nat (Capacity (config s) - 1)) l) ∧
        mutex s' = false ∧ config s' = config s ∧
        heap s !! a = None ∧ table s' !! k = Some a ∧
        payload (heap s') a = Some (k, d, now + Ttl (config s)) ∧
        ∀ b, b ≠ a → payload (heap s') b = payload (heap s) b.
Proof.
  intros Hl Hm Hk Hcap Hfuel.
  set (n := Z.to_nat (Capacity (config s) - 1)) in *.
  enough (wp (Put fuel now k d) s (λ r s', r = false ∧ ∃ a,
        lru s' (a :: take n l) ∧
        mutex s' = false ∧ config s' = config s ∧
        heap s !! a = None ∧ table s' !! k = Some a ∧
        payload (heap s') a = Some (k, d, now + Ttl (config s)) ∧
        ∀ b, b ≠ a → payload (heap s') b = payload (heap s) b)) as Hwp.
  { apply wp_Done in Hwp as (r & s' & HP & -> & a & H). eauto. }
  unfold Put. apply wp_locked; [done|]. wp_pure. rewrite Hk.
  apply wp_bind.
  eapply wp_mono; [by apply (evict_while_full_spec fuel (with_mutex true s) l)|].
  wp_simpl. fold n.
  intros [] s1 ((Hc1 & Hi1 & Hsz1 & Hr1 & Hcap1) & Hsp1 & Hm1 & Hcfg1 & Ht1).
  assert (table s1 !! k = None) as Hk1.
  { by eapply lookup_weaken_None. }
  apply wp_bind. unfold wp at 1, alloc.
  set (a := fresh_addr (heap s1)).
  assert (heap s1 !! a = None) as Ha1 by apply fresh_addr_spec.
  assert (heap s !! a = None) as Ha0.
  { specialize (Hsp1 a). unfold payload in Hsp1. rewrite Ha1 in Hsp1.
    by destruct (heap s !! a). }
  assert (a ∉ take n l) as Hal.
  { intros Hin. destruct (chain_in_heap _ _ _ Hc1 Hin) as [? ?]. congruence. }
  wp_pure.
  set (nd := {| key := k; data := d; ttl := now + Ttl (config s);
                prev := None; next := None |}).
  set (s3 := with_table _ _).
  assert (∀ c, c ≠ a → heap s3 !! c = heap s1 !! c) as Hne.
  { intros c Hc. unfold s3. wp_simpl. by rewrite lookup_insert_ne. }
  assert (heap s3 !! a = Some nd) as Ha3.
  { unfold s3. wp_simpl. apply lookup_insert_eq. }
  assert (chain s3 (take n l)) as Hc3.
  { eapply chain_same_links; [exact Hc1| |done|done].
    intros c Hc. unfold links. rewrite Hne; [done|]. by intros ->. }
  apply wp_bind. eapply wp_mono.
  { apply (setHead_chain_new s3 (take n l) a); [done|done|].
    unfold links. by rewrite Ha3. }
  intros [] s4 (Hc4 & (Hsp4 & Hsz4 & Hm4 & Hcfg4) & Ht4).
  wp_pure. split; [unfold s3 in Hm4; wp_simpl; congruence|].
  split; [done|]. exists a.
  assert (∀ c, key <$> heap s4 !! c = key <$> heap s3 !! c) as Hkeys.
  { intros c. by apply same_payload_key. }
  assert (int64_range (size s1 + 1)) as Hr5.
  { rewrite Hsz1, length_take. unfold int64_range in *. rewrite Hcfg1 in *.
    unfold n. lia. }
  split_and!; wp_simpl; try done.
  - split_and!; wp_simpl; try done.
    + apply indexed_intro; wp_simpl.
      * intros k' b Hb. rewrite Ht4 in Hb. unfold s3 in Hb. wp_simpl.
        rewrite Hkeys. destruct (decide (k' = k)) as [->|Hkk].
        -- rewrite lookup_insert_eq in Hb. injection Hb as <-.
           split; [apply list_elem_of_here|]. by rewrite Ha3.
        -- rewrite lookup_insert_ne in Hb by done.
           destruct (indexed_lookup _ _ _ _ Hi1 Hb) as [Hin Hkb].
           split; [by apply list_elem_of_further|].
           rewrite Hne; [done|]. by intros ->.
      * intros b [->|Hb]%elem_of_cons.
        -- exists k. rewrite Hkeys, Ha3, Ht4. split; [done|].
           unfold s3. wp_simpl. apply lookup_insert_eq.
        -- destruct (indexed_elem _ _ _ Hi1 Hb) as (k' & Hk' & Ht').
           exists k'. rewrite Hkeys, Ht4. rewrite Hne by (by intros ->).
           split; [done|]. unfold s3. wp_simpl.
           rewrite lookup_insert_ne; [done|]. intros ->. congruence.
    + rewrite Hsz4. unfold s3. wp_simpl. rewrite wrap64_id by done.
      simpl length. lia.
    + rewrite Hsz4. unfold s3. wp_simpl. by rewrite wrap64_id.
    + rewrite Hcfg4. unfold s3. wp_simpl. done.
  - rewrite Hcfg4. unfold s3. wp_simpl. done.
  - rewrite Ht4. unfold s3. wp_simpl. apply lookup_insert_eq.
  - rewrite Hsp4. unfold payload. by rewrite Ha3.
  - intros b Hb. rewrite Hsp4. unfold payload. rewrite Hne by done.
    apply Hsp1.
Qed.

(** *** [Clear] *)

Lemma indexed_nil_table s : indexed s [] → table s = ∅.
Proof.
  intros Hi. apply map_empty. intros k.
  destruct (table s !! k) as [a|] eqn:E; [|done].
  destruct (indexed_lookup _ _ _ _ Hi E) as [Hin _]. by apply elem_of_nil in Hin.
Qed.

Lemma evict_all_spec fuel s l :
  chain s l → indexed s l → (length l ≤ fuel)%nat →
  wp (evict_all fuel) s (λ _ s',
    chain s' [] ∧ indexed s' [] ∧ same_frame s s').
Proof.
  revert s l. induction fuel as [|fuel IH]; intros s l Hc Hi Hfuel.
  - destruct l; [|simpl in Hfuel; lia]. simpl. wp_pure.
    pose proof Hc as (_ & Hh & _ & _). rewrite Hh. simpl. apply wp_ret.
    split_and!; try done.
  - simpl. wp_pure. destruct (snoc_cases l) as [->|(l' & t & ->)].
    + pose proof Hc as (_ & Hh & _ & _). rewrite Hh. simpl. apply wp_ret.
      split_and!; try done.
    + pose proof Hc as (Hnd & Hh & Ht & _). rewrite Hh.
      replace (is_nil (hd_error (l' ++ [t]))) with false by (by destruct l').
      wp_pure. rewrite Ht, last_snoc. apply wp_bind.
      eapply wp_mono; [by apply (evict_chain s l' t [])|].
      intros [] s1 (Hc1 & (Hsp & Hsz1 & Hm1 & Hcfg1) & k & Hk & Ht1).
      rewrite app_nil_r in Hc1.
      assert (indexed s1 l') as Hi1.
      { rewrite <-(app_nil_r l'). eapply (indexed_delete s); try done.
        intros c. by apply same_payload_key. }
      rewrite length_app in Hfuel. simpl in Hfuel.
      eapply wp_mono; [apply (IH s1 l'); [done|done|lia]|].
      intros [] s2 (Hc2 & Hi2 & (Hsp2 & Hsz2 & Hm2 & Hcfg2)).
      split_and!; [done|done|].
      split_and!; [by eapply same_payload_trans|congruence..].
Qed.

Lemma Clear_spec s l fuel :
  lru s l → mutex s = false → (length l ≤ fuel)%nat →
  ∃ s', Clear fuel s = Done tt s' ∧ lru s' [] ∧ mutex s' = false ∧
        table s' = ∅ ∧ head s' = None ∧ tail s' = None ∧ size s' = 0 ∧
        config s' = config s.
Proof.
  intros (Hc & Hi & Hsz & Hr & Hcap) Hm Hfuel.
  enough (wp (Clear fuel) s (λ _ s', lru s' [] ∧ mutex s' = false ∧
        table s' = ∅ ∧ head s' = None ∧ tail s' = None ∧ size s' = 0 ∧
        config s' = config s)) as Hwp.
  { apply wp_Done in Hwp as ([] & s' & HP & H). eauto. }
  unfold Clear. apply wp_locked; [done|]. apply wp_bind.
  eapply wp_mono; [by apply (evict_all_spec fuel (with_mutex true s) l)|].
  intros [] s1 (Hc1 & Hi1 & (Hsp & Hsz1 & Hm1 & Hcfg1)).
  apply wp_modify. wp_simpl.
  pose proof Hc1 as (_ & Hh1 & Ht1 & _).
  split_and!; try done.
  - split_and!; wp_simpl; try done. by rewrite Hcfg1.
  - by apply indexed_nil_table.
Qed.

(** *** [RemoveExpired] *)

Lemma is_expired_same_payload h h' now a :
  same_payload h h' → is_expired h' now a = is_expired h now a.
Proof.
  intros Hsp. specialize (Hsp a). unfold payload, is_expired in *.
  destruct (h' !! a), (h !! a); simplify_eq/=; congruence.
Qed.

Lemma swept_same_payload h h' clock i kvs :
  same_payload h h' → swept h' clock i kvs = swept h clock i kvs.
Proof.
  intros Hsp. revert i. induction kvs as [|[k a] kvs IH]; intros i; [done|].
  simpl. by rewrite IH, (is_expired_same_payload h h').
Qed.

Lemma swept_const h now i kvs b :
  b ∈ swept h (λ _, now) i kvs ↔ b ∈ kvs.*2 ∧ is_expired h now b = true.
Proof.
  revert i. induction kvs as [|[k a] kvs IH]; intros i; simpl.
  - rewrite !elem_of_nil. tauto.
  - destruct (is_expired h now a) eqn:E; rewrite ?elem_of_cons, IH.
    + split; [intros [->|[? ?]]; eauto|]. intros [[->|?] ?]; eauto.
    + split; [intros [? ?]; eauto|]. intros [[->|?] ?]; [congruence|eauto].
Qed.

Lemma RemoveExpired_range_spec clock kvs : ∀ s l count i,
  lru s l → mutex s = false → NoDup kvs.*1 →
  (∀ k a, (k, a) ∈ kvs → table s !! k = Some a) →
  0 ≤ count → count + Z.of_nat (length kvs) < 2 ^ 63 →
  ∃ cnt s', RemoveExpired_range clock i kvs count s = Done cnt s' ∧
    lru s' (filter (λ b, b ∉ swept (heap s) clock i kvs) l) ∧
    mutex s' = false ∧ same_payload (heap s) (heap s') ∧
    config s' = config s ∧ count ≤ cnt ∧ size s' = size s - (cnt - count).
Proof.
  induction kvs as [|[k a] kvs IH]; intros s l count i Hl Hm Hnd Hin Hc0 Hc1.
  - exists count, s. simpl. rewrite filter_all by (intros ? _ []%elem_of_nil).
    split_and!; try done. lia.
  - simpl in Hnd, Hc1. apply NoDup_cons in Hnd as [Hk Hnd].
    assert (table s !! k = Some a) as Hka by apply Hin, list_elem_of_here.
    pose proof Hl as (Hch & Hi & _).
    destruct (indexed_lookup _ _ _ _ Hi Hka) as [Hal _].
    destruct (chain_in_heap _ _ _ Hch Hal) as [nd Ha].
    simpl. unfold bind at 1, deref. rewrite Ha.
    assert (is_expired (heap s) (clock i) a = (ttl nd <? clock i)) as Hexp.
    { unfold is_expired. by rewrite Ha. }
    rewrite Hexp. destruct (ttl nd <? clock i) eqn:E.
    + apply list_elem_of_split in Hal as (l1 & l2 & ->).
      destruct (Delete_hit s l1 a l2 k Hl Hm Hka)
        as (s1 & HD & (Hl1 & Hsp1 & Hcfg1 & Hsz1 & Ht1) & Hm1).
      unfold bind. rewrite HD.
      destruct (IH s1 (l1 ++ l2) (wrap64 (count + 1)) (S i)) as
        (cnt & s2 & HR & Hl2 & Hm2 & Hsp2 & Hcfg2 & Hcnt & Hsz2); try done.
      * intros k' b Hb. rewrite Ht1. rewrite lookup_delete_ne.
        -- by apply Hin, list_elem_of_further.
        -- intros Heq. subst k'. apply Hk. apply list_elem_of_fmap.
           by exists (k, b).
      * rewrite wrap64_id by (unfold int64_range; lia). lia.
      * rewrite wrap64_id by (unfold int64_range; lia). lia.
      * rewrite wrap64_id in * by (unfold int64_range; lia).
        assert (same_payload (heap s) (heap s2)) by by eapply same_payload_trans.
        exists cnt, s2. split_and!; try done; try congruence; try lia.
        rewrite <-(NoDup_filter_ne l1 l2 a) in Hl2 by (by destruct Hch).
        rewrite list_filter_filter in Hl2.
        erewrite list_filter_iff; [exact Hl2|].
        intros b. simpl. rewrite (swept_same_payload _ _ _ _ _ Hsp1).
        rewrite not_elem_of_cons. tauto.
    + destruct (IH s l count (S i)) as
        (cnt & s2 & HR & Hl2 & Hm2 & Hsp2 & Hcfg2 & Hcnt & Hsz2); try done.
      * intros k' b Hb. by apply Hin, list_elem_of_further.
      * lia.
      * exists cnt, s2. by split_and!.
Qed.

Lemma filter_ext_in {A} (P Q : A → Prop) `{!∀ x, Decision (P x)}
    `{!∀ x, Decision (Q x)} (l : list A) :
  (∀ x, x ∈ l → P x ↔ Q x) → filter P l = filter Q l.
Proof.
  induction l as [|x l IH]; intros Hl; [done|].
  rewrite !filter_cons, IH by (intros y Hy; by apply Hl, list_elem_of_further).
  pose proof (Hl x (list_elem_of_here _ _)) as Hx.
  destruct (decide (P x)), (decide (Q x)); tauto.
Qed.

(** A sweep in any iteration order [kvs] of the table, under any clock. *)
Lemma RemoveExpired_any_clock clock s l kvs :
  lru s l → mutex s = false → kvs ≡ₚ map_to_list (table s) →
  ∃ cnt s', RemoveExpired_range clock 0 kvs 0 s = Done cnt s' ∧
    lru s' (filter (λ b, b ∉ swept (heap s) clock 0 kvs) l) ∧
    mutex s' = false ∧ same_payload (heap s) (heap s') ∧
    config s' = config s ∧ 0 ≤ cnt ∧ size s' = size s - cnt.
Proof.
  intros Hl Hm Hp. pose proof Hl as (Hch & Hi & Hsz & Hr & _).
  destruct (RemoveExpired_range_spec clock kvs s l 0 0%nat) as
    (cnt & s' & HR & Hl' & Hm' & Hsp & Hcfg & Hcnt & Hsz'); try done.
  - rewrite Hp. apply NoDup_fst_map_to_list.
  - intros k a Hka. rewrite Hp in Hka. by apply elem_of_map_to_list.
  - rewrite Hp, length_map_to_list, (indexed_size s l) by (by destruct Hch).
    unfold int64_range in Hr. lia.
  - exists cnt, s'. split_and!; try done. lia.
Qed.

(** With one clock reading for the whole sweep, what goes is exactly what
    that reading finds expired. *)
Lemma RemoveExpired_kvs_spec now s l kvs :
  lru s l → mutex s = false → kvs ≡ₚ map_to_list (table s) →
  ∃ cnt s', RemoveExpired_range (λ _, now) 0 kvs 0 s = Done cnt s' ∧
    lru s' (filter (λ b, is_expired (heap s) now b = false) l) ∧
    mutex s' = false ∧ same_payload (heap s) (heap s') ∧
    config s' = config s ∧ 0 ≤ cnt ∧ size s' = size s - cnt.
Proof.
  intros Hl Hm Hp. pose proof Hl as (Hch & Hi & _).
  destruct (RemoveExpired_any_clock (λ _, now) s l kvs) as
    (cnt & s' & HR & Hl' & Hm' & Hsp & Hcfg & Hcnt & Hsz'); try done.
  exists cnt, s'. split_and!; try done.
  erewrite filter_ext_in; [exact Hl'|]. intros b Hb. simpl.
  rewrite swept_const.
  assert (b ∈ kvs.*2) as Hbk.
  { destruct (indexed_elem _ _ _ Hi Hb) as (k & _ & Hk).
    apply list_elem_of_fmap. exists (k, b). split; [done|].
    rewrite Hp. by apply elem_of_map_to_list. }
  destruct (is_expired (heap s) now b) eqn:E; split; try done.
  - intros Hne. exfalso. apply Hne. done.
  - intros _ [_ ?]. done.
Qed.

(** ** Well-formed engines *)

Lemma lru_WF s l : lru s l → mutex s = false → WF s ∧ order s = l.
Proof.
  intros Hl Hm. assert (order s = l) as Ho by (apply chain_order, Hl).
  split; [|done]. split; [by rewrite Ho|done].
Qed.

Lemma WF_lru s : WF s → lru s (order s).
Proof. by intros [? ?]. Qed.

Lemma empty_storage_lru cfg :
  int64_range (Capacity cfg) → lru (empty_storage cfg) [].
Proof.
  intros Hcap. split_and!; simpl; try done.
  apply chain_intro; [constructor|done..].
Qed.

Lemma evict_while_full_unfold fuel s :
  evict_while_full fuel s =
  if Capacity (config s) <=? size s then
    match fuel with
    | O => OutOfFuel
    | S fuel' =>
        bind (evict (tail s)) (λ _, bind size_dec (λ _, evict_while_full fuel')) s
    end
  else Done tt s.
Proof.
  destruct fuel; simpl; unfold bind at 1 2, gets;
    by destruct (Capacity (config s) <=? size s).
Qed.

Lemma evict_all_unfold fuel s :
  evict_all fuel s =
  if is_nil (head s) then Done tt s else
    match fuel with
    | O => OutOfFuel
    | S fuel' => bind (evict (tail s)) (λ _, evict_all fuel') s
    end.
Proof.
  destruct fuel; simpl; unfold bind at 1, gets; by destruct (is_nil (head s)).
Qed.

(** More fuel never changes what a loop that finished has done. *)
Lemma evict_while_full_fuel_mono fuel fuel' s r s' :
  evict_while_full fuel s = Done r s' → (fuel ≤ fuel')%nat →
  evict_while_full fuel' s = Done r s'.
Proof.
  revert fuel' s. induction fuel as [|fuel IH]; intros fuel' s;
    rewrite !evict_while_full_unfold;
    destruct (Capacity (config s) <=? size s); try done.
  intros H Hle. destruct fuel' as [|fuel']; [lia|]. revert H.
  unfold bind at 1 3. destruct (evict (tail s) s) as [[] s0| | | |]; try done.
  unfold bind at 1 2, size_dec, modify. intros H. apply IH; [done|lia].
Qed.

Lemma evict_all_fuel_mono fuel fuel' s r s' :
  evict_all fuel s = Done r s' → (fuel ≤ fuel')%nat →
  evict_all fuel' s = Done r s'.
Proof.
  revert fuel' s. induction fuel as [|fuel IH]; intros fuel' s;
    rewrite !evict_all_unfold; destruct (is_nil (head s)); try done.
  intros H Hle. destruct fuel' as [|fuel']; [lia|]. revert H.
  unfold bind. destruct (evict (tail s) s) as [[] s0| | | |]; try done.
  intros H. apply IH; [done|lia].
Qed.

Lemma bind_Done {A B} (m : M A) (f : A → M B) s r s' :
  bind m f s = Done r s' ↔ ∃ a s1, m s = Done a s1 ∧ f a s1 = Done r s'.
Proof.
  unfold bind. destruct (m s) as [a s1| | | |].
  - split; [eauto|]. by intros (? & ? & [= <- <-] & ?).
  - split; [done|]. by intros (? & ? & ? & ?).
  - split; [done|]. by intros (? & ? & ? & ?).
  - split; [done|]. by intros (? & ? & ? & ?).
  - split; [done|]. by intros (? & ? & ? & ?).
Qed.

Lemma Put_fuel_mono fuel fuel' now k d s r s' :
  Put fuel now k d s = Done r s' → (fuel ≤ fuel')%nat →
  Put fuel' now k d s = Done r s'.
Proof.
  intros H Hle. revert H. unfold Put, locked, bind, gets, Lock.
  destruct (mutex s); [done|]. wp_simpl.
  destruct (table s !! k); [done|].
  destruct (evict_while_full fuel _) as [[] s3| | | |] eqn:E; try done.
  by rewrite (evict_while_full_fuel_mono _ _ _ _ _ E Hle).
Qed.

Lemma Clear_fuel_mono fuel fuel' s r s' :
  Clear fuel s = Done r s' → (fuel ≤ fuel')%nat → Clear fuel' s = Done r s'.
Proof.
  intros H Hle. revert H. unfold Clear, locked, bind, Lock.
  destruct (mutex s); [done|].
  destruct (evict_all fuel _) as [[] s3| | | |] eqn:E; try done.
  by rewrite (evict_all_fuel_mono _ _ _ _ _ E Hle).
Qed.

(** ** The behaviour of [Get] and [Put] on a key that is present *)

Lemma WF_split s a :
  WF s → a ∈ order s →
  ∃ l1 l2, order s = l1 ++ a :: l2 ∧ lru s (l1 ++ a :: l2) ∧
           filter (λ b, b ≠ a) (order s) = l1 ++ l2.
Proof.
  intros [Hl _] (l1 & l2 & Ho)%list_elem_of_split. exists l1, l2.
  rewrite Ho in *. split_and!; [done|done|].
  apply NoDup_filter_ne. by destruct Hl as [[? _] _].
Qed.

Lemma WF_lookup s k a :
  WF s → table s !! k = Some a →
  a ∈ order s ∧ ∃ nd, heap s !! a = Some nd ∧ key nd = k.
Proof.
  intros [(_ & Hi & _) _] Hk.
  destruct (indexed_lookup _ _ _ _ Hi Hk) as [Hin Hkey]. split; [done|].
  destruct (heap s !! a) as [nd|]; [|done]. simpl in Hkey. exists nd.
  split; [done|congruence].
Qed.

(** C1 (the code's side of it): a [Get] that finds its key live leaves the
    engine exactly as it was, so the entry keeps its place in the recency
    order; it is not moved to the head. *)
Theorem Get_hit_leaves_engine_untouched s now k v s' :
  mutex s = false → Get now k s = Done (v, true) s' →
  s' = s ∧ order s' = order s.
Proof.
  intros Hm H. unfold Get, locked, bind, Lock, gets, deref, Unlock, ret in H.
  rewrite Hm in H. unfold size_dec, modify in H.
  repeat case_match; simplify_eq/=.
  by rewrite with_mutex_id.
Qed.

Lemma Get_hit_leaves_engine_untouched_witness :
  mutex demo_ab = false ∧
  Get 2 "a" demo_ab = Done ([Byte.x01], true) demo_ab ∧
  order demo_ab = order demo_ab.
Proof.
  split; [reflexivity|].
  assert (Get 2 "a" demo_ab = Done ([Byte.x01], true) demo_ab) as HG
    by (vm_compute; reflexivity).
  split; [exact HG|].
  exact (proj2 (Get_hit_leaves_engine_untouched demo_ab 2 "a" _ _ eq_refl HG)).
Defined.

(** The scenario behind C1, run on the code: capacity 2, write ["a"], write
    ["b"], read ["a"] (a hit), write ["c"].  The read did not refresh ["a"]:
    it is ["a"], not ["b"], that the last write evicts. *)
Example Get_does_not_protect_from_eviction :
  let s := after (Put 1 3 "c" [Byte.x03]) (after (Get 2 "a") demo_ab) in
  Get 2 "a" demo_ab = Done ([Byte.x01], true) demo_ab ∧
  table s !! "a" = None ∧ is_Some (table s !! "b") ∧ key_order s = ["c"; "b"].
Proof. vm_compute. split_and!; try reflexivity. by eexists. Qed.

Lemma payload_Some h a k d t :
  payload h a = Some (k, d, t) ↔
  ∃ nd, h !! a = Some nd ∧ key nd = k ∧ data nd = d ∧ ttl nd = t.
Proof.
  unfold payload. destruct (h !! a) as [nd|]; simpl.
  - split; [intros [= <- <- <-]; eauto|]. by intros (? & [= <-] & <- & <- & <-).
  - split; [done|]. by intros (? & ? & ?).
Qed.

(** What [Get] does with a key that is present, by the entry's expiry. *)
Lemma Get_present s now k a nd :
  WF s → table s !! k = Some a → heap s !! a = Some nd →
  (ttl nd < now →
     ∃ s', Get now k s = Done ([], false) s' ∧ WF s' ∧
           table s' = delete k (table s) ∧
           order s' = filter (λ b, b ≠ a) (order s) ∧
           size s' = size s - 1 ∧ same_payload (heap s) (heap s')) ∧
  (now ≤ ttl nd → Get now k s = Done (data nd, true) s).
Proof.
  intros HWF Hk Ha. split.
  - intros Ht. destruct (WF_lookup _ _ _ HWF Hk) as [Hin _].
    destruct (WF_split _ _ HWF Hin) as (l1 & l2 & Ho & Hl & Hf).
    destruct (Get_expired s l1 a l2 now k nd) as
      (s' & HG & (Hl' & Hsp & Hcfg & Hsz & Htab) & Hm'); try done.
    { by destruct HWF. }
    destruct (lru_WF _ _ Hl' Hm') as [HWF' Ho'].
    exists s'. rewrite Ho', Hf. by split_and!.
  - intros Ht. apply (Get_live s now k a nd); try done. by destruct HWF.
Qed.

(** What [Put] does with a key that is present. *)
Lemma Put_present s fuel now k d a :
  WF s → table s !! k = Some a →
  ∃ s', Put fuel now k d s = Done true s' ∧ WF s' ∧
        size s' = size s ∧ table s' = table s ∧ config s' = config s ∧
        order s' = a :: filter (λ b, b ≠ a) (order s) ∧
        payload (heap s') a = Some (k, d, now + Ttl (config s)) ∧
        ∀ b, b ≠ a → payload (heap s') b = payload (heap s) b.
Proof.
  intros HWF Hk. destruct (WF_lookup _ _ _ HWF Hk) as [Hin _].
  destruct (WF_split _ _ HWF Hin) as (l1 & l2 & Ho & Hl & Hf).
  destruct (Put_existing s l1 a l2 fuel now k d) as
    (s' & HP & Hl' & Hm' & Htab & Hsz & Hcfg & Hpa & Hpb); try done.
  { by destruct HWF. }
  destruct (lru_WF _ _ Hl' Hm') as [HWF' Ho'].
  exists s'. rewrite Ho', Hf. by split_and!.
Qed.

(** What [Put] does with a key that is absent, capacity permitting. *)
Lemma Put_absent s fuel now k d :
  WF s → table s !! k = None → 1 ≤ Capacity (config s) →
  (length (order s) - Z.to_nat (Capacity (config s) - 1) ≤ fuel)%nat →
  ∃ a s', Put fuel now k d s = Done false s' ∧ WF s' ∧
        order s' = a :: take (Z.to_nat (Capacity (config s) - 1)) (order s) ∧
        config s' = config s ∧ heap s !! a = None ∧ table s' !! k = Some a ∧
        payload (heap s') a = Some (k, d, now + Ttl (config s)) ∧
        ∀ b, b ≠ a → payload (heap s') b = payload (heap s) b.
Proof.
  intros [Hl Hm] Hk Hcap Hfuel.
  destruct (Put_new s (order s) fuel now k d) as
    (a & s' & HP & Hl' & Hm' & Hcfg & Ha & Htab & Hpa & Hpb); try done.
  destruct (lru_WF _ _ Hl' Hm') as [HWF' Ho'].
  exists a, s'. rewrite Ho'. by split_and!.
Qed.

(** C2, as the code has it: an entry is removed by [Get] only once its
    expiry lies strictly before the clock reading ([Before] is strict); at the
    expiry instant itself it is still served.  So a key written at [T] with
    TTL [d] is found, with the value written, up to and including [T + d],
    and is removed (index, order and count) by the first [Get] after that. *)
Theorem Get_expiry_is_strict s :
  WF s →
  (∀ now k a nd, table s !! k = Some a → heap s !! a = Some nd →
     (ttl nd < now →
        ∃ s', Get now k s = Done ([], false) s' ∧ WF s' ∧
              table s' = delete k (table s) ∧
              order s' = filter (λ b, b ≠ a) (order s) ∧
              size s' = size s - 1) ∧
     (now ≤ ttl nd → Get now k s = Done (data nd, true) s)) ∧
  (∀ fuel T k v, 1 ≤ Capacity (config s) →
     (length (order s) - Z.to_nat (Capacity (config s) - 1) ≤ fuel)%nat →
     ∃ hit s1, Put fuel T k v s = Done hit s1 ∧ WF s1 ∧
       (∀ t, t ≤ T + Ttl (config s) → Get t k s1 = Done (v, true) s1) ∧
       (∀ t, T + Ttl (config s) < t →
          ∃ s2, Get t k s1 = Done ([], false) s2 ∧ WF s2 ∧
                table s2 !! k = None ∧ size s2 = size s1 - 1)).
Proof.
  intros HWF. split.
  - intros now k a nd Hk Ha.
    destruct (Get_present s now k a nd HWF Hk Ha) as [Hexp Hlive].
    split; [|done]. intros Ht.
    destruct (Hexp Ht) as (s' & ? & ? & ? & ? & ? & ?). eauto 10.
  - intros fuel T k v Hcap Hfuel.
    assert (∃ hit s1 a, Put fuel T k v s = Done hit s1 ∧ WF s1 ∧
              table s1 !! k = Some a ∧
              payload (heap s1) a = Some (k, v, T + Ttl (config s)))
      as (hit & s1 & a & HP & HWF1 & Hk1 & Hpa).
    { destruct (table s !! k) as [a|] eqn:Hk.
      - destruct (Put_present s fuel T k v a HWF Hk) as
          (s1 & HP & HWF1 & _ & Htab & _ & _ & Hpa & _).
        exists true, s1, a. split_and!; try done. by rewrite Htab.
      - destruct (Put_absent s fuel T k v HWF Hk Hcap Hfuel) as
          (a & s1 & HP & HWF1 & _ & _ & _ & Htab & Hpa & _).
        exists false, s1, a. by split_and!. }
    apply payload_Some in Hpa as (nd & Ha1 & _ & Hd & Ht).
    exists hit, s1. split_and!; try done.
    + intros t Hle. destruct (Get_present s1 t k a nd HWF1 Hk1 Ha1) as [_ Hl].
      rewrite <-Hd. apply Hl. lia.
    + intros t Hlt. destruct (Get_present s1 t k a nd HWF1 Hk1 Ha1) as [He _].
      destruct He as (s2 & HG & HWF2 & Htab & _ & Hsz & _); [lia|].
      exists s2. split_and!; try done. rewrite Htab. apply lookup_delete_eq.
Qed.

(** C2 as stated fails at the expiry instant: ["a"] was written at time 0
    with TTL 100, so it expires at 100; a [Get] at time 100 (expiry at or
    before now) still finds it and removes nothing. *)
Lemma Get_at_expiry_instant_finds_key :
  WF demo_a ∧ table demo_a !! "a" = Some 2%positive ∧
  ttl <$> heap demo_a !! 2%positive = Some 100 ∧ 100 ≤ 100 ∧
  Get 100 "a" demo_a = Done ([Byte.x01], true) demo_a ∧
  ¬ (∃ v s', Get 100 "a" demo_a = Done (v, false) s').
Proof.
  split_and!; [compute_done|reflexivity|reflexivity|lia|reflexivity|].
  intros (v & s' & H). vm_compute in H. discriminate H.
Qed.

Lemma Get_expiry_is_strict_witness :
  WF demo_a ∧
  Get 100 "a" demo_a = Done ([Byte.x01], true) demo_a ∧
  (∃ s', Get 101 "a" demo_a = Done ([], false) s' ∧ size s' = 0).
Proof.
  assert (WF demo_a) as HWF by compute_done.
  split; [exact HWF|].
  destruct (Get_expiry_is_strict demo_a HWF) as [Hget _].
  assert (heap demo_a !! 2%positive =
          Some {| key := "a"; data := [Byte.x01]; ttl := 100;
                  prev := None; next := None |}) as Ha by reflexivity.
  split.
  - apply (proj2 (Hget 100 "a" 2%positive _ eq_refl Ha)). simpl. lia.
  - destruct (proj1 (Hget 101 "a" 2%positive _ eq_refl Ha)) as
      (s' & HG & _ & _ & _ & Hsz); [simpl; lia|].
    exists s'. split; [exact HG|]. rewrite Hsz. reflexivity.
Defined.

(** C9: [Put] on a key that is present overwrites the value, sets the
    expiry to [now + ttl], moves the entry to the head of the recency order
    and returns [true]; the count, the index, the relative order of the other
    entries and their contents stay as they were. *)
Theorem Put_update_is_not_growth s fuel now k d a :
  WF s → table s !! k = Some a →
  ∃ s', Put fuel now k d s = Done true s' ∧ WF s' ∧
        size s' = size s ∧ table s' = table s ∧ config s' = config s ∧
        order s' = a :: filter (λ b, b ≠ a) (order s) ∧
        payload (heap s') a = Some (k, d, now + Ttl (config s)) ∧
        ∀ b, b ≠ a → payload (heap s') b = payload (heap s) b.
Proof. apply Put_present. Qed.

Lemma Put_update_is_not_growth_witness :
  WF demo_ab ∧ table demo_ab !! "a" = Some 2%positive ∧
  ∃ s', Put 0 7 "a" [Byte.x09] demo_ab = Done true s' ∧
        size s' = 2 ∧ order s' = [2%positive; 3%positive] ∧
        payload (heap s') 2%positive = Some ("a", [Byte.x09], 107).
Proof.
  assert (WF demo_ab) as HWF by compute_done.
  split; [exact HWF|]. split; [reflexivity|].
  destruct (Put_update_is_not_growth demo_ab 0 7 "a" [Byte.x09] 2%positive
              HWF eq_refl) as (s' & HP & _ & Hsz & _ & _ & Ho & Hpa & _).
  exists s'. split_and!; [exact HP|exact Hsz|exact Ho|exact Hpa].
Defined.

(** C10: [Put] never looks at the expiry.  On a key whose entry has already
    expired it takes the update path: it returns [true], keeps the same node
    under the key, allocates nothing, leaves the count alone, and the entry,
    with its new value and expiry, is live again for a non-negative TTL. *)
Theorem Put_refreshes_expired_entry s fuel now k d a nd :
  WF s → table s !! k = Some a → heap s !! a = Some nd → ttl nd ≤ now →
  ∃ s', Put fuel now k d s = Done true s' ∧ WF s' ∧
        size s' = size s ∧ table s' !! k = Some a ∧
        dom (heap s') = dom (heap s) ∧
        payload (heap s') a = Some (k, d, now + Ttl (config s)) ∧
        (0 ≤ Ttl (config s) → Get now k s' = Done (d, true) s').
Proof.
  intros HWF Hk Ha _.
  destruct (Put_present s fuel now k d a HWF Hk) as
    (s' & HP & HWF' & Hsz & Htab & Hcfg & Ho & Hpa & Hpb).
  exists s'. split_and!; try done.
  - by rewrite Htab.
  - apply set_eq. intros b. rewrite !elem_of_dom.
    destruct (decide (b = a)) as [->|Hb].
    + apply payload_Some in Hpa as (nd' & Ha' & _). rewrite Ha, Ha'.
      split; eauto.
    + specialize (Hpb b Hb). unfold payload in Hpb.
      rewrite <-!(fmap_is_Some (λ nd, (key nd, data nd, ttl nd))), Hpb. done.
  - intros Httl. apply payload_Some in Hpa as (nd' & Ha' & _ & Hd & Ht).
    rewrite <-Hd. apply (Get_live s' now k a nd'); try done.
    + by destruct HWF'.
    + by rewrite Htab.
    + lia.
Qed.

Lemma Put_refreshes_expired_entry_witness :
  WF demo_ab ∧ table demo_ab !! "a" = Some 2%positive ∧
  ttl <$> heap demo_ab !! 2%positive = Some 100 ∧ 100 ≤ 500 ∧
  ∃ s', Put 0 500 "a" [Byte.x09] demo_ab = Done true s' ∧ size s' = 2 ∧
        Get 500 "a" s' = Done ([Byte.x09], true) s'.
Proof.
  assert (WF demo_ab) as HWF by compute_done.
  split; [exact HWF|]. split; [reflexivity|]. split; [reflexivity|].
  split; [lia|].
  assert (heap demo_ab !! 2%positive =
          Some {| key := "a"; data := [Byte.x01]; ttl := 100;
                  prev := Some 3%positive; next := None |}) as Ha.
  { vm_compute. reflexivity. }
  destruct (Put_refreshes_expired_entry demo_ab 0 500 "a" [Byte.x09]
              2%positive _ HWF eq_refl Ha) as
    (s' & HP & _ & Hsz & _ & _ & _ & HG); [vm_compute; discriminate|].
  exists s'. split_and!; [exact HP|exact Hsz|].
  apply HG. vm_compute. discriminate.
Defined.

(** ** Capacity zero, construction and the mutex *)

Lemma lru_nil_fields s :
  lru s [] → table s = ∅ ∧ head s = None ∧ tail s = None ∧ size s = 0.
Proof.
  intros ((_ & Hh & Ht & _) & Hi & Hsz & _). split_and!; try done.
  by apply indexed_nil_table.
Qed.

(** [evict] has no nil check: on a nil node it panics, whatever the state. *)
Lemma evict_nil_panics s : evict None s = Panic.
Proof.
  unfold evict, bind, gets, ptr_eq.
  destruct (head s) as [h|], (tail s) as [t|]; simpl;
    repeat case_bool_decide; simplify_eq/=; done.
Qed.

(** A new key, an empty list and no capacity: the eviction loop calls [evict]
    on the nil tail. *)
Lemma Put_new_key_nil_tail s fuel now k d :
  WF s → order s = [] → Capacity (config s) ≤ 0 →
  Put (S fuel) now k d s = Panic.
Proof.
  intros [Hl Hm] Ho Hcap. rewrite Ho in Hl.
  destruct (lru_nil_fields s Hl) as (Htab & Hh & Ht & Hsz).
  unfold Put, locked, bind at 1, Lock. rewrite Hm.
  unfold bind at 1. unfold bind at 1 2, gets. wp_simpl.
  rewrite Htab, lookup_empty. unfold bind at 1.
  rewrite evict_while_full_unfold. wp_simpl. rewrite Hsz.
  destruct (Capacity (config s) <=? 0) eqn:E; [|apply Z.leb_gt in E; lia].
  unfold bind at 1. wp_simpl. rewrite Ht. by rewrite evict_nil_panics.
Qed.

(** C5 (what the code does): with a capacity of zero or less, a [Put] of a
    new key on an empty engine does not complete.  The eviction loop runs
    because [0 >= capacity], calls [evict] on the nil tail, and [evict], which
    has no nil check, dereferences it. *)
Theorem Put_without_capacity_panics s fuel now k d :
  WF s → order s = [] → Capacity (config s) ≤ 0 →
  Put (S fuel) now k d s = Panic.
Proof. apply Put_new_key_nil_tail. Qed.

Lemma Put_without_capacity_panics_witness :
  WF (empty_storage zero_cfg) ∧ order (empty_storage zero_cfg) = [] ∧
  Capacity (config (empty_storage zero_cfg)) ≤ 0 ∧
  Put 1 0 "a" [Byte.x01] (empty_storage zero_cfg) = Panic.
Proof.
  assert (WF (empty_storage zero_cfg)) as HWF by compute_done.
  assert (Capacity (config (empty_storage zero_cfg)) ≤ 0) as Hcap
    by (vm_compute; discriminate).
  split_and!; [exact HWF|reflexivity|exact Hcap|].
  exact (Put_without_capacity_panics _ 0 0 "a" [Byte.x01] HWF eq_refl Hcap).
Defined.

(** C6, as the code has it: [New] validates nothing.  For every
    configuration, whatever its capacity, it returns an engine: empty,
    consistent, carrying the configuration as given, on which the reading
    methods answer. *)
Theorem New_accepts_every_config cfg :
  int64_range (Capacity cfg) →
  ∃ s, New cfg = Some s ∧ WF s ∧ order s = [] ∧ table s = ∅ ∧
       size s = 0 ∧ config s = cfg ∧
       (∀ now k, Get now k s = Done ([], false) s) ∧
       (∀ k, Delete k s = Done false s) ∧
       Size s = Done 0 s ∧ Cap s = Done (Capacity cfg) s.
Proof.
  intros Hcap. exists (empty_storage cfg).
  destruct (lru_WF _ _ (empty_storage_lru cfg Hcap) eq_refl) as [HWF Ho].
  split_and!; try done.
Qed.

Lemma New_accepts_every_config_witness :
  int64_range (Capacity zero_cfg) ∧
  ∃ s, New zero_cfg = Some s ∧ size s = 0 ∧ config s = zero_cfg.
Proof.
  assert (int64_range (Capacity zero_cfg)) as Hcap by compute_done.
  split; [exact Hcap|].
  destruct (New_accepts_every_config zero_cfg Hcap) as
    (s & HN & _ & _ & _ & Hsz & Hcfg & _).
  exists s. split_and!; [exact HN|exact Hsz|exact Hcfg].
Defined.

(** C6 as stated fails: a capacity of zero is not rejected. *)
Lemma New_does_not_reject_zero_capacity :
  Capacity zero_cfg ≤ 0 ∧ New zero_cfg = Some (empty_storage zero_cfg) ∧
  New zero_cfg ≠ None.
Proof. split_and!; [vm_compute; discriminate|reflexivity|discriminate]. Qed.

Lemma RemoveExpired_range_nothing_due clock kvs : ∀ i count s,
  (∀ k a, (k, a) ∈ kvs →
     ∃ nd, heap s !! a = Some nd ∧ ∀ j, clock j ≤ ttl nd) →
  RemoveExpired_range clock i kvs count s = Done count s.
Proof.
  induction kvs as [|[k a] kvs IH]; intros i count s Hkvs; [done|].
  destruct (Hkvs k a) as (nd & Ha & Hnd); [apply list_elem_of_here|].
  simpl. unfold bind, deref. rewrite Ha.
  destruct (ttl nd <? clock i) eqn:E.
  { apply Z.ltb_lt in E. specialize (Hnd i). lia. }
  apply IH. intros k' b Hb. apply (Hkvs k' b). by apply list_elem_of_further.
Qed.

(** C7 (what the code does): [Size] and [Cap] never touch the mutex, and
    [RemoveExpired] ranges over the table and reads the nodes without it,
    locking only inside the [Delete] calls it makes.  While the mutex is held
    elsewhere, [Get], [Put], [Delete] and [Clear] wait for it; [Size] and
    [Cap] return at once, and so does a [RemoveExpired] that finds nothing
    expired. *)
Theorem Size_Cap_RemoveExpired_bypass_mutex s :
  mutex s = true →
  Size s = Done (size s) s ∧ Cap s = Done (Capacity (config s)) s ∧
  (∀ clock,
     (∀ k a, table s !! k = Some a →
        ∃ nd, heap s !! a = Some nd ∧ ∀ j, clock j ≤ ttl nd) →
     RemoveExpired clock s = Done 0 s) ∧
  (∀ now k, Get now k s = Blocked) ∧
  (∀ fuel now k d, Put fuel now k d s = Blocked) ∧
  (∀ k, Delete k s = Blocked) ∧
  (∀ fuel, Clear fuel s = Blocked).
Proof.
  intros Hm. split_and!; try done.
  - intros clock Hlive. unfold RemoveExpired, bind, gets.
    apply RemoveExpired_range_nothing_due. intros k a Hka.
    apply (Hlive k a). by apply elem_of_map_to_list.
  - intros now k. by apply locked_blocked.
  - intros fuel now k d. by apply locked_blocked.
  - intros k. by apply locked_blocked.
  - intros fuel. by apply locked_blocked.
Qed.

Lemma Size_Cap_RemoveExpired_bypass_mutex_witness :
  mutex demo_held = true ∧
  Size demo_held = Done 2 demo_held ∧
  Get 5 "a" demo_held = Blocked.
Proof.
  assert (mutex demo_held = true) as Hm by reflexivity.
  split; [exact Hm|].
  destruct (Size_Cap_RemoveExpired_bypass_mutex demo_held Hm) as
    (HS & _ & _ & HG & _).
  split; [exact HS|exact (HG 5 "a")].
Defined.

(** [RemoveExpired] on the same engine: it reads both entries, finds neither
    expired at time 5 and returns 0, all with the mutex held elsewhere; at
    time 500 it gets as far as its first [Delete], which blocks. *)
Example RemoveExpired_reads_without_mutex :
  RemoveExpired (λ _, 5) demo_held = Done 0 demo_held ∧
  RemoveExpired (λ _, 500) demo_held = Blocked.
Proof. split; vm_compute; reflexivity. Qed.

(** ** The sweep *)

Lemma table_of_filtered s s' l (P : addr → Prop) `{!∀ a, Decision (P a)} k a :
  indexed s l → indexed s' (filter P l) → same_payload (heap s) (heap s') →
  table s' !! k = Some a ↔ table s !! k = Some a ∧ P a.
Proof.
  intros Hi Hi' Hsp. split.
  - intros Hk. destruct (indexed_lookup _ _ _ _ Hi' Hk) as [Hin Hkey].
    apply list_elem_of_filter in Hin as [HP Hin]. split; [|done].
    destruct (indexed_elem _ _ _ Hi Hin) as (k2 & Hk2 & Ht2).
    rewrite (same_payload_key _ _ a Hsp) in Hkey. congruence.
  - intros [Hk HP]. destruct (indexed_lookup _ _ _ _ Hi Hk) as [Hin Hkey].
    assert (a ∈ filter P l) as Hin' by (by apply list_elem_of_filter).
    destruct (indexed_elem _ _ _ Hi' Hin') as (k2 & Hk2 & Ht2).
    rewrite (same_payload_key _ _ a Hsp) in Hk2. congruence.
Qed.

Lemma WF_sizes s :
  WF s → size s = Z.of_nat (base.size (table s)) ∧
         size s = Z.of_nat (length (order s)).
Proof.
  intros [(Hc & Hi & Hsz & _) _]. split; [|done].
  rewrite (indexed_size s (order s)); [done| |done]. by destruct Hc.
Qed.

(** C8, as the code has it: whatever order the table is ranged over,
    [RemoveExpired] deletes exactly the entries whose expiry lies strictly
    before the clock reading (an entry expiring at that very instant stays),
    returns how many it deleted, and [Size] afterwards is the old size less
    that number. *)
Theorem RemoveExpired_deletes_strictly_expired s now kvs :
  WF s → kvs ≡ₚ map_to_list (table s) →
  ∃ cnt s', RemoveExpired_range (λ _, now) 0 kvs 0 s = Done cnt s' ∧
    (kvs = map_to_list (table s) → RemoveExpired (λ _, now) s = Done cnt s') ∧
    WF s' ∧
    (∀ k a, table s' !! k = Some a ↔
            table s !! k = Some a ∧ is_expired (heap s) now a = false) ∧
    order s' = filter (λ b, is_expired (heap s) now b = false) (order s) ∧
    cnt = Z.of_nat (base.size (table s)) - Z.of_nat (base.size (table s')) ∧
    Size s' = Done (size s - cnt) s' ∧
    same_payload (heap s) (heap s').
Proof.
  intros HWF Hp. pose proof HWF as [Hl Hm].
  destruct (RemoveExpired_kvs_spec now s (order s) kvs Hl Hm Hp) as
    (cnt & s' & HR & Hl' & Hm' & Hsp & Hcfg & Hcnt & Hsz).
  destruct (lru_WF _ _ Hl' Hm') as [HWF' Ho'].
  exists cnt, s'. split_and!; try done.
  - intros ->. exact HR.
  - intros k a.
    apply (table_of_filtered s s' (order s)
             (λ b, is_expired (heap s) now b = false)); try done.
    + by destruct Hl as (_ & ? & _).
    + by destruct Hl' as (_ & ? & _).
  - destruct (WF_sizes s HWF) as [<- _]. destruct (WF_sizes s' HWF') as [<- _].
    lia.
  - unfold Size, gets. by rewrite Hsz.
Qed.

Lemma RemoveExpired_deletes_strictly_expired_witness :
  WF demo_ab ∧ map_to_list (table demo_ab) ≡ₚ map_to_list (table demo_ab) ∧
  ∃ s', RemoveExpired (λ _, 101) demo_ab = Done 1 s' ∧
        table s' !! "a" = None ∧ is_Some (table s' !! "b") ∧
        Size s' = Done 1 s'.
Proof.
  assert (WF demo_ab) as HWF by compute_done.
  split; [exact HWF|]. split; [reflexivity|].
  destruct (RemoveExpired_deletes_strictly_expired demo_ab 101
              (map_to_list (table demo_ab)) HWF (reflexivity _)) as
    (cnt & s' & _ & HR & _ & Htab & _ & Hcnt & HS & _).
  specialize (HR eq_refl).
  assert (table s' !! "a" = None) as Ha.
  { destruct (table s' !! "a") as [a|] eqn:E; [|reflexivity].
    exfalso. apply Htab in E as [Ha He].
    vm_compute in Ha. injection Ha as <-. vm_compute in He. discriminate He. }
  assert (table s' !! "b" = Some 3%positive) as Hb.
  { apply Htab. split; vm_compute; reflexivity. }
  assert (cnt = 1) as ->.
  { assert (RemoveExpired (λ _, 101) demo_ab =
            Done 1 (after (RemoveExpired (λ _, 101)) demo_ab)) as HR'
      by (vm_compute; reflexivity).
    rewrite HR in HR'. by injection HR'. }
  exists s'. split_and!; [exact HR|exact Ha|by rewrite Hb|].
  rewrite HS. reflexivity.
Defined.

(** C8 as stated fails at the expiry instant: ["a"] expires at 100 and ["b"]
    at 101; a sweep at time 100 deletes neither, although the expiry of
    ["a"] is at (so at or before) the current time. *)
Lemma RemoveExpired_at_expiry_instant_keeps_entry :
  WF demo_ab ∧ table demo_ab !! "a" = Some 2%positive ∧
  ttl <$> heap demo_ab !! 2%positive = Some 100 ∧ 100 ≤ 100 ∧
  RemoveExpired (λ _, 100) demo_ab = Done 0 demo_ab.
Proof.
  split_and!; [compute_done|reflexivity|reflexivity|lia|vm_compute; reflexivity].
Qed.

(** ** Every reachable engine is consistent *)

Lemma exec_op_steady o s s' :
  steady s → exec_op o s = Done tt s' → steady s' ∧ config s' = config s.
Proof.
  intros [HWF Hsz] Hrun. pose proof HWF as [Hl Hm].
  destruct o as [now k|fuel now k d|k|fuel| | |clock]; simpl in Hrun.
  - (* Get *)
    apply bind_Done in Hrun as (r & s1 & HG & [= <-]).
    destruct (table s !! k) as [a|] eqn:Hk.
    + destruct (WF_lookup _ _ _ HWF Hk) as [_ (nd & Ha & _)].
      destruct (Get_present s now k a nd HWF Hk Ha) as [Hexp Hlive].
      destruct (decide (ttl nd < now)) as [Hlt|Hge].
      * destruct (Hexp Hlt) as (s2 & HG2 & HWF2 & _ & _ & Hsz2 & _).
        rewrite HG in HG2. injection HG2 as _ <-.
        assert (config s1 = config s) as Hcfg.
        { destruct (WF_split _ _ HWF (proj1 (WF_lookup _ _ _ HWF Hk)))
            as (l1 & l2 & _ & Hl12 & _).
          destruct (Get_expired s l1 a l2 now k nd Hl12 Hm Hk Ha Hlt) as
            (s3 & HG3 & (_ & _ & Hcfg3 & _) & _).
          rewrite HG in HG3. by injection HG3 as _ <-. }
        split; [|done]. split; [done|]. rewrite Hcfg. lia.
      * rewrite Hlive in HG by lia. injection HG as _ <-. by split.
    + rewrite (Get_miss s now k Hm Hk) in HG. injection HG as _ <-. by split.
  - (* Put *)
    apply bind_Done in Hrun as (r & s1 & HP & [= <-]).
    destruct (table s !! k) as [a|] eqn:Hk.
    + destruct (Put_present s fuel now k d a HWF Hk) as
        (s2 & HP2 & HWF2 & Hsz2 & _ & Hcfg2 & _).
      rewrite HP in HP2. injection HP2 as _ <-.
      split; [|done]. split; [done|]. rewrite Hcfg2, Hsz2. done.
    + destruct (decide (1 ≤ Capacity (config s))) as [Hcap|Hcap].
      * set (fuel' := (fuel `max` length (order s))%nat).
        apply (Put_fuel_mono _ fuel') in HP; [|lia].
        destruct (Put_absent s fuel' now k d HWF Hk Hcap) as
          (a & s2 & HP2 & HWF2 & Ho2 & Hcfg2 & _); [lia|].
        rewrite HP in HP2. injection HP2 as _ <-.
        split; [|done]. split; [done|].
        destruct (WF_sizes s1 HWF2) as [_ ->]. rewrite Ho2, Hcfg2.
        simpl length. rewrite length_take. lia.
      * exfalso. apply (Put_fuel_mono _ (S fuel)) in HP; [|lia].
        rewrite Put_new_key_nil_tail in HP; try done; [|lia].
        destruct (WF_sizes s HWF) as [_ Hlen].
        destruct (order s); [done|]. simpl in Hlen. lia.
  - (* Delete *)
    apply bind_Done in Hrun as (r & s1 & HD & [= <-]).
    destruct (table s !! k) as [a|] eqn:Hk.
    + destruct (WF_split _ _ HWF (proj1 (WF_lookup _ _ _ HWF Hk)))
        as (l1 & l2 & _ & Hl12 & _).
      destruct (Delete_hit s l1 a l2 k Hl12 Hm Hk) as
        (s2 & HD2 & (Hl2 & _ & Hcfg2 & Hsz2 & _) & Hm2).
      rewrite HD in HD2. injection HD2 as _ <-.
      split; [|done]. split; [by apply (lru_WF _ _ Hl2 Hm2)|].
      rewrite Hcfg2. lia.
    + rewrite (Delete_miss s k Hm Hk) in HD. injection HD as _ <-. by split.
  - (* Clear *)
    set (fuel' := (fuel `max` length (order s))%nat).
    apply (Clear_fuel_mono _ fuel') in Hrun; [|lia].
    destruct (Clear_spec s (order s) fuel' Hl Hm) as
      (s2 & HC2 & Hl2 & Hm2 & _ & _ & _ & Hsz2 & Hcfg2); [lia|].
    rewrite Hrun in HC2. injection HC2 as <-.
    split; [|done]. split; [by apply (lru_WF _ _ Hl2 Hm2)|]. lia.
  - (* Size *) injection Hrun as <-. by split.
  - (* Cap *) injection Hrun as <-. by split.
  - (* RemoveExpired *)
    apply bind_Done in Hrun as (r & s1 & HR & [= <-]).
    destruct (RemoveExpired_any_clock clock s (order s)
                (map_to_list (table s)) Hl Hm (reflexivity _)) as
      (cnt & s2 & HR2 & Hl2 & Hm2 & _ & Hcfg2 & Hcnt & Hsz2).
    unfold RemoveExpired, bind, gets in HR. rewrite HR in HR2.
    injection HR2 as _ <-.
    split; [|done]. split; [by apply (lru_WF _ _ Hl2 Hm2)|].
    rewrite Hcfg2. lia.
Qed.

Lemma exec_ops_steady os : ∀ s s',
  steady s → exec_ops os s = Done tt s' → steady s' ∧ config s' = config s.
Proof.
  induction os as [|o os IH]; intros s s' Hs Hrun.
  - injection Hrun as <-. by split.
  - simpl in Hrun. apply bind_Done in Hrun as ([] & s1 & Ho & Hos).
    destruct (exec_op_steady o s s1 Hs Ho) as [Hs1 Hcfg1].
    destruct (IH s1 s' Hs1 Hos) as [Hs' Hcfg']. split; [done|congruence].
Qed.

(** C4: in every state a fresh engine reaches through [Get], [Put],
    [Delete], [Clear], [Size], [Cap] and [RemoveExpired], the count equals the
    number of keys in the index and the number of nodes in the recency
    order; for a capacity of at least one the count never exceeds it, in
    particular after any further [Put]. *)
Theorem count_index_order_agree cfg os s :
  int64_range (Capacity cfg) →
  exec_ops os (empty_storage cfg) = Done tt s →
  WF s ∧ config s = cfg ∧
  size s = Z.of_nat (base.size (table s)) ∧
  size s = Z.of_nat (length (order s)) ∧
  (1 ≤ Capacity cfg →
     size s ≤ Capacity cfg ∧
     ∀ fuel now k d r s', Put fuel now k d s = Done r s' →
                          size s' ≤ Capacity cfg).
Proof.
  intros Hcap Hrun.
  assert (steady (empty_storage cfg)) as H0.
  { split; [apply (lru_WF _ []); [by apply empty_storage_lru|done]|simpl; lia]. }
  destruct (exec_ops_steady os _ _ H0 Hrun) as [[HWF Hsz] Hcfg].
  simpl in Hcfg. destruct (WF_sizes s HWF) as [Ht Ho].
  assert (steady s) as Hs by done.
  split_and!; try done. intros Hc. rewrite Hcfg in Hsz. split; [lia|].
  intros fuel now k d r s' HP.
  assert (exec_op (OpPut fuel now k d) s = Done tt s') as Hop.
  { simpl. unfold bind. by rewrite HP. }
  destruct (exec_op_steady _ s s' Hs Hop) as [[_ Hsz'] Hcfg'].
  rewrite Hcfg', Hcfg in Hsz'. lia.
Qed.

Lemma count_index_order_agree_witness :
  int64_range (Capacity demo_cfg) ∧
  exec_ops [OpPut 1 0 "a" [Byte.x01]; OpPut 1 1 "b" [Byte.x02]; OpGet 2 "a";
            OpPut 1 3 "c" [Byte.x03]; OpRemoveExpired (λ _, 102); OpSize]
    (empty_storage demo_cfg)
  = Done tt (after (Get 102 "b") (after (Put 1 3 "c" [Byte.x03]) demo_ab)) ∧
  size (after (Get 102 "b") (after (Put 1 3 "c" [Byte.x03]) demo_ab)) = 1.
Proof.
  assert (int64_range (Capacity demo_cfg)) as Hcap by compute_done.
  split; [exact Hcap|].
  assert (exec_ops [OpPut 1 0 "a" [Byte.x01]; OpPut 1 1 "b" [Byte.x02];
                    OpGet 2 "a"; OpPut 1 3 "c" [Byte.x03];
                    OpRemoveExpired (λ _, 102); OpSize]
            (empty_storage demo_cfg)
          = Done tt (after (Get 102 "b") (after (Put 1 3 "c" [Byte.x03]) demo_ab)))
    as Hrun by (vm_compute; reflexivity).
  split; [exact Hrun|].
  destruct (count_index_order_agree demo_cfg _ _ Hcap Hrun) as
    (_ & _ & Ht & _).
  rewrite Ht. vm_compute. reflexivity.
Defined.

(** ** Least recently used goes first *)

Lemma omap_take_total {A B} (f : A → option B) (l : list A) n :
  (∀ x, x ∈ l → is_Some (f x)) → omap f (take n l) = take n (omap f l).
Proof.
  revert n. induction l as [|x l IH]; intros n Hl; [by destruct n|].
  destruct n as [|n]; [done|]. simpl.
  destruct (Hl x) as [y Hy]; [apply list_elem_of_here|]. rewrite Hy. simpl.
  f_equal. apply IH. intros z Hz. by apply Hl, list_elem_of_further.
Qed.

Lemma omap_ext_in {A B} (f g : A → option B) (l : list A) :
  (∀ x, x ∈ l → f x = g x) → omap f l = omap g l.
Proof.
  induction l as [|x l IH]; intros Hl; [done|]. simpl.
  rewrite (Hl x) by apply list_elem_of_here.
  destruct (g x); [f_equal|]; apply IH; intros z Hz;
    by apply Hl, list_elem_of_further.
Qed.

Lemma WF_key_in_heap s b :
  WF s → b ∈ order s → is_Some (key <$> heap s !! b).
Proof.
  intros [(Hc & _) _] Hb. apply fmap_is_Some. by eapply chain_in_heap.
Qed.

Lemma key_order_spec s k :
  WF s → k ∈ key_order s ↔ is_Some (table s !! k).
Proof.
  intros HWF. pose proof HWF as [(_ & Hi & _) _]. unfold key_order.
  rewrite list_elem_of_omap. split.
  - intros (a & Ha & Hk). destruct (indexed_elem _ _ _ Hi Ha) as (k' & Hk' & Ht).
    exists a. congruence.
  - intros [a Ha]. destruct (indexed_lookup _ _ _ _ Hi Ha) as [Hin Hk].
    eauto.
Qed.

Lemma key_order_length s : WF s → length (key_order s) = length (order s).
Proof.
  intros HWF. unfold key_order.
  assert (∀ b, b ∈ order s → is_Some (key <$> heap s !! b)) as Hall
    by (intros; by apply WF_key_in_heap).
  induction (order s) as [|b l IH]; [done|]. simpl.
  destruct (Hall b) as [k Hk]; [apply list_elem_of_here|]. rewrite Hk. simpl.
  f_equal. apply IH. intros c Hc. by apply Hall, list_elem_of_further.
Qed.

Lemma payload_key_eq h h' b :
  payload h' b = payload h b → key <$> h' !! b = key <$> h !! b.
Proof.
  unfold payload. destruct (h' !! b), (h !! b); simpl; congruence.
Qed.

Lemma Put_absent_key_order s fuel now k d :
  WF s → table s !! k = None → 1 ≤ Capacity (config s) →
  (length (order s) - Z.to_nat (Capacity (config s) - 1) ≤ fuel)%nat →
  ∃ s', Put fuel now k d s = Done false s' ∧ WF s' ∧
        config s' = config s ∧
        key_order s' =
          k :: take (Z.to_nat (Capacity (config s) - 1)) (key_order s).
Proof.
  intros HWF Hk Hcap Hfuel.
  destruct (Put_absent s fuel now k d HWF Hk Hcap Hfuel) as
    (a & s' & HP & HWF' & Ho & Hcfg & Ha & Htab & Hpa & Hpb).
  exists s'. split_and!; try done. unfold key_order. rewrite Ho. simpl.
  apply payload_Some in Hpa as (nd & Ha' & Hkey & _). rewrite Ha'. simpl.
  rewrite Hkey. f_equal.
  rewrite <-omap_take_total by (intros; by apply WF_key_in_heap).
  apply omap_ext_in. intros b Hb.
  assert (b ∈ order s) as Hb' by (by eapply subseteq_take).
  assert (b ≠ a) as Hne.
  { intros ->. destruct (WF_key_in_heap s a HWF Hb') as [? Hx].
    by rewrite Ha in Hx. }
  by apply payload_key_eq, Hpb.
Qed.

Lemma put_ops_run ps : ∀ s,
  WF s → 1 ≤ Capacity (config s) → NoDup (put_keys ps) →
  (∀ k, k ∈ put_keys ps → k ∉ key_order s) →
  Z.of_nat (length (order s)) ≤ Capacity (config s) →
  ∃ s', exec_ops (put_ops ps) s = Done tt s' ∧ WF s' ∧
        config s' = config s ∧
        key_order s' =
          fold_left (λ acc k, k :: take (Z.to_nat (Capacity (config s) - 1)) acc)
            (put_keys ps) (key_order s).
Proof.
  induction ps as [|[[now k] d] ps IH]; intros s HWF Hcap Hnd Hnew Hlen.
  - exists s. by split_and!.
  - simpl in Hnd. apply NoDup_cons in Hnd as [Hk Hnd].
    assert (table s !! k = None) as Htab.
    { apply eq_None_not_Some. rewrite <-key_order_spec by done.
      apply Hnew, list_elem_of_here. }
    destruct (Put_absent_key_order s 1 now k d HWF Htab Hcap) as
      (s1 & HP & HWF1 & Hcfg1 & Hko1); [lia|].
    destruct (IH s1) as (s' & Hrun & HWF' & Hcfg' & Hko'); try done.
    + by rewrite Hcfg1.
    + intros k' Hk'. rewrite Hko1. apply not_elem_of_cons. split.
      * intros ->. done.
      * intros Hin%subseteq_take. revert Hin. apply Hnew.
        by apply list_elem_of_further.
    + rewrite <-key_order_length, Hko1, Hcfg1 by done. simpl.
      rewrite length_take. lia.
    + exists s'. split_and!; try congruence.
      * simpl. unfold bind at 1 2. rewrite HP. exact Hrun.
      * rewrite Hko', Hko1, Hcfg1. done.
Qed.

Lemma fold_fill (n : nat) (ks acc : list string) :
  (length ks + length acc ≤ S n)%nat →
  fold_left (λ acc k, k :: take n acc) ks acc = reverse ks ++ acc.
Proof.
  revert acc. induction ks as [|k ks IH]; intros acc Hlen; [done|].
  simpl in *. rewrite IH by (simpl; rewrite length_take; lia).
  rewrite take_ge by lia. by rewrite reverse_cons, <-(assoc (++)).
Qed.

Lemma fold_spill (n : nat) (k0 : string) (ks : list string) :
  length ks = S n →
  fold_left (λ acc k, k :: take n acc) (k0 :: ks) [] = reverse ks.
Proof.
  intros Hlen. destruct (snoc_cases ks) as [->|(ks' & kl & ->)]; [done|].
  rewrite length_app in Hlen. simpl in Hlen.
  simpl. rewrite fold_left_app, take_nil. simpl.
  rewrite fold_fill by (simpl; lia).
  rewrite take_app_length' by (rewrite length_reverse; lia).
  by rewrite reverse_snoc.
Qed.

(** C3: on a fresh engine of capacity [N >= 1], [N + 1] writes of distinct
    keys leave exactly the first key out and the other [N] in, most recent
    first; and whenever a new key is written with the count at or above
    capacity, the node at the tail goes, whatever its expiry and whatever the
    time (neither appears among the hypotheses). *)
Theorem LRU_evicts_least_recent :
  (∀ cfg p0 ps,
     1 ≤ Capacity cfg → int64_range (Capacity cfg) →
     Z.of_nat (length ps) = Capacity cfg → NoDup (put_keys (p0 :: ps)) →
     ∃ s, exec_ops (put_ops (p0 :: ps)) (empty_storage cfg) = Done tt s ∧
          WF s ∧ table s !! (p0.1.2) = None ∧
          (∀ k, k ∈ put_keys ps → is_Some (table s !! k)) ∧
          key_order s = reverse (put_keys ps) ∧ size s = Capacity cfg) ∧
  (∀ s fuel now k d t kt,
     WF s → table s !! k = None →
     1 ≤ Capacity (config s) → Capacity (config s) ≤ size s →
     list.last (order s) = Some t → key <$> heap s !! t = Some kt →
     (length (order s) - Z.to_nat (Capacity (config s) - 1) ≤ fuel)%nat →
     ∃ s', Put fuel now k d s = Done false s' ∧ WF s' ∧
           (t ∉ order s') ∧ table s' !! kt = None).
Proof.
  split.
  - intros cfg p0 ps Hcap Hr Hlen Hnd.
    destruct (lru_WF (empty_storage cfg) []) as [HWF0 Ho0];
      [by apply empty_storage_lru|done|].
    assert (key_order (empty_storage cfg) = []) as Hk0.
    { unfold key_order. by rewrite Ho0. }
    destruct (put_ops_run (p0 :: ps) (empty_storage cfg)) as
      (s & Hrun & HWF & Hcfg & Hko); try done.
    { intros k _. rewrite Hk0. apply not_elem_of_nil. }
    { rewrite Ho0. simpl. lia. }
    simpl in Hcfg.
    rewrite Hk0 in Hko. simpl config in Hko.
    change (put_keys (p0 :: ps)) with (p0.1.2 :: put_keys ps) in Hko, Hnd.
    rewrite fold_spill in Hko by (unfold put_keys; rewrite length_fmap; lia).
    apply NoDup_cons in Hnd as [Hp0 _].
    exists s. split_and!; try done.
    + apply eq_None_not_Some. rewrite <-key_order_spec, Hko by done.
      by rewrite elem_of_reverse.
    + intros k Hk. rewrite <-key_order_spec, Hko by done.
      by rewrite elem_of_reverse.
    + destruct (WF_sizes s HWF) as [_ ->].
      rewrite <-key_order_length, Hko, length_reverse by done.
      unfold put_keys. rewrite length_fmap. done.
  - intros s fuel now k d t kt HWF Hk Hcap Hfull Hlast Hkt Hfuel.
    destruct (Put_absent s fuel now k d HWF Hk Hcap Hfuel) as
      (a & s' & HP & HWF' & Ho & Hcfg & Ha & Htab & Hpa & Hpb).
    pose proof HWF as [((Hnd & _) & Hi & _) _].
    apply last_Some in Hlast as [l' Hl'].
    assert (t ∉ take (Z.to_nat (Capacity (config s) - 1)) (order s)) as Ht.
    { rewrite Hl' in Hnd |- *. destruct (WF_sizes s HWF) as [_ Hsz].
      rewrite Hl', length_app in Hsz. simpl in Hsz.
      rewrite take_app_le by lia. intros Hin%subseteq_take.
      apply NoDup_app in Hnd as (_ & Hnd & _). eapply Hnd; [done|].
      apply list_elem_of_here. }
    assert (t ∈ order s) as Hin.
    { rewrite Hl'. apply elem_of_app. right. apply list_elem_of_here. }
    assert (t ≠ a) as Hta.
    { intros ->. destruct (WF_key_in_heap s a HWF Hin) as [? Hx].
      by rewrite Ha in Hx. }
    destruct (indexed_elem _ _ _ Hi Hin) as (k2 & Hk2 & Ht2).
    assert (k2 = kt) as -> by congruence.
    exists s'. split_and!; try done.
    + rewrite Ho. by apply not_elem_of_cons.
    + destruct (table s' !! kt) as [b|] eqn:E; [|done]. exfalso.
      pose proof HWF' as [(_ & Hi' & _) _].
      destruct (indexed_lookup _ _ _ _ Hi' E) as [Hb Hkb].
      rewrite Ho in Hb. apply elem_of_cons in Hb as [->|Hb].
      * apply payload_Some in Hpa as (nd & Hnd' & Hkey & _).
        rewrite Hnd' in Hkb. simpl in Hkb. congruence.
      * assert (b ≠ a) as Hba.
        { intros ->. apply subseteq_take in Hb.
          destruct (WF_key_in_heap s a HWF Hb) as [? Hx]. by rewrite Ha in Hx. }
        rewrite (payload_key_eq _ _ _ (Hpb b Hba)) in Hkb.
        destruct (indexed_elem _ _ _ Hi (subseteq_take _ _ _ Hb)) as
          (k3 & Hk3 & Ht3).
        assert (k3 = kt) as -> by congruence.
        assert (b = t) as -> by congruence. done.
Qed.

Lemma LRU_evicts_least_recent_witness :
  1 ≤ Capacity demo_cfg ∧ int64_range (Capacity demo_cfg) ∧
  NoDup ["a"; "b"; "c"] ∧
  ∃ s, exec_ops (put_ops [(0, "a", [Byte.x01]); (1, "b", [Byte.x02]);
                          (2, "c", [Byte.x03])]) (empty_storage demo_cfg)
       = Done tt s ∧
       table s !! "a" = None ∧ key_order s = ["c"; "b"] ∧ size s = 2.
Proof.
  assert (1 ≤ Capacity demo_cfg) as Hcap by (vm_compute; discriminate).
  assert (int64_range (Capacity demo_cfg)) as Hr by compute_done.
  assert (NoDup ["a"; "b"; "c"]) as Hnd by compute_done.
  split_and!; [exact Hcap|exact Hr|exact Hnd|].
  destruct (proj1 LRU_evicts_least_recent demo_cfg (0, "a", [Byte.x01])
              [(1, "b", [Byte.x02]); (2, "c", [Byte.x03])] Hcap Hr eq_refl Hnd)
    as (s & Hrun & _ & Ha & _ & Hko & Hsz).
  exists s. split_and!; [exact Hrun|exact Ha|exact Hko|exact Hsz].
Defined.

(** * Further properties of the methods *)

(** ** The internal helpers on their own *)

(** X1: [setHead] guards against [nil] and [evict] does not: in every state
    [setHead(nil)] returns at once, touching nothing, while [evict(nil)]
    ends in a nil dereference. *)
Theorem setHead_guards_nil_evict_does_not s :
  setHead None s = Done tt s ∧ evict None s = Panic.
Proof. split; [reflexivity|apply evict_nil_panics]. Qed.

Lemma lru_split s l a :
  lru s l → a ∈ l →
  ∃ l1 l2, l = l1 ++ a :: l2 ∧ filter (λ b, b ≠ a) l = l1 ++ l2.
Proof.
  intros Hl (l1 & l2 & ->)%list_elem_of_split. exists l1, l2. split; [done|].
  apply NoDup_filter_ne. by destruct Hl as [[? _] _].
Qed.

(** X2: [setHead] on a node of the list moves that node to the head, keeps
    the other nodes in their relative order, and changes neither the table,
    nor the count, nor any key, value or expiry. *)
Theorem setHead_moves_node_to_front s l a :
  lru s l → a ∈ l →
  ∃ s', setHead (Some a) s = Done tt s' ∧
        lru s' (a :: filter (λ b, b ≠ a) l) ∧
        order s' = a :: filter (λ b, b ≠ a) l ∧
        table s' = table s ∧ size s' = size s ∧ config s' = config s ∧
        mutex s' = mutex s ∧ same_payload (heap s) (heap s').
Proof.
  intros Hl Hin. destruct (lru_split _ _ _ Hl Hin) as (l1 & l2 & -> & ->).
  destruct Hl as (Hc & Hi & Hsz & Hr & Hrc).
  pose proof (setHead_chain_in s l1 a l2 Hc) as Hwp. unfold wp in Hwp.
  destruct (setHead (Some a) s) as [[] s'| | | |] eqn:E; try done.
  destruct Hwp as (Hc' & (Hsp & Hsz' & Hm' & Hcfg') & Ht').
  exists s'. split_and!; try done.
  - split_and!; try done.
    + apply (indexed_same_keys s s' (l1 ++ a :: l2)); try done.
      * intros c. by apply payload_key_eq.
      * intros x. rewrite elem_of_cons, !elem_of_app, elem_of_cons. tauto.
    + rewrite Hsz', Hsz. f_equal. rewrite !length_app. simpl.
      rewrite length_app. lia.
    + by rewrite Hsz'.
    + by rewrite Hcfg'.
  - by apply chain_order.
Qed.

Lemma setHead_moves_node_to_front_witness :
  lru demo_ab [3%positive; 2%positive] ∧ 2%positive ∈ [3%positive; 2%positive] ∧
  ∃ s', setHead (Some 2%positive) demo_ab = Done tt s' ∧
        order s' = [2%positive; 3%positive].
Proof.
  assert (lru demo_ab [3%positive; 2%positive]) as Hl by compute_done.
  assert (2%positive ∈ [3%positive; 2%positive]) as Hin by compute_done.
  split; [exact Hl|]. split; [exact Hin|].
  destruct (setHead_moves_node_to_front demo_ab _ 2%positive Hl Hin) as
    (s' & HS & _ & Ho & _).
  exists s'. split; [exact HS|exact Ho].
Defined.

(** X3: [setHead] on a node that is not in the list and has nil links puts
    it in front of the list, whatever the list holds (for the empty list
    both [head] and [tail] become the node). *)
Theorem setHead_pushes_new_node s l a :
  chain s l → a ∉ l → links (heap s) a = Some (None, None) →
  ∃ s', setHead (Some a) s = Done tt s' ∧ chain s' (a :: l) ∧
        order s' = a :: l ∧ head s' = Some a ∧
        (l = [] → tail s' = Some a) ∧
        table s' = table s ∧ size s' = size s ∧
        same_payload (heap s) (heap s').
Proof.
  intros Hc Hni Hlk.
  pose proof (setHead_chain_new s l a Hc Hni Hlk) as Hwp. unfold wp in Hwp.
  destruct (setHead (Some a) s) as [[] s'| | | |] eqn:E; try done.
  destruct Hwp as (Hc' & (Hsp & Hsz' & Hm' & Hcfg') & Ht').
  exists s'. split_and!; try done.
  - by apply chain_order.
  - by destruct Hc' as (_ & ? & _).
  - intros ->. by destruct Hc' as (_ & _ & ? & _).
Qed.

(** X4: [evict] on a node of the list takes exactly that node out of the
    list and its key out of the table; the other nodes keep their order, no
    key, value or expiry changes, and the count is left to the caller. *)
Theorem evict_removes_exactly_the_node s l a :
  lru s l → a ∈ l →
  ∃ k s', evict (Some a) s = Done tt s' ∧
        key <$> heap s !! a = Some k ∧ table s !! k = Some a ∧
        table s' = delete k (table s) ∧
        chain s' (filter (λ b, b ≠ a) l) ∧
        indexed s' (filter (λ b, b ≠ a) l) ∧
        order s' = filter (λ b, b ≠ a) l ∧
        size s' = size s ∧ config s' = config s ∧ mutex s' = mutex s ∧
        same_payload (heap s) (heap s').
Proof.
  intros Hl Hin. destruct (lru_split _ _ _ Hl Hin) as (l1 & l2 & -> & ->).
  destruct Hl as (Hc & Hi & Hsz & Hr & Hrc).
  pose proof (evict_chain s l1 a l2 Hc) as Hwp. unfold wp in Hwp.
  destruct (evict (Some a) s) as [[] s'| | | |] eqn:E; try done.
  destruct Hwp as (Hc' & (Hsp & Hsz' & Hm' & Hcfg') & k & Hk & Ht').
  destruct (indexed_elem _ _ _ Hi Hin) as (k' & Hk' & Htk).
  assert (k' = k) as -> by congruence.
  exists k, s'. split_and!; try done.
  - apply (indexed_delete s s' l1 a l2 k); try done.
    + by destruct Hc.
    + intros c. by apply payload_key_eq.
  - by apply chain_order.
Qed.

Lemma setHead_pushes_new_node_witness :
  chain demo_ab_spare [3%positive; 2%positive] ∧
  (4%positive ∉ [3%positive; 2%positive]) ∧
  links (heap demo_ab_spare) 4%positive = Some (None, None) ∧
  ∃ s', setHead (Some 4%positive) demo_ab_spare = Done tt s' ∧
        order s' = [4%positive; 3%positive; 2%positive].
Proof.
  assert (chain demo_ab_spare [3%positive; 2%positive]) as Hc by compute_done.
  assert (4%positive ∉ [3%positive; 2%positive]) as Hni by compute_done.
  assert (links (heap demo_ab_spare) 4%positive = Some (None, None)) as Hlk
    by (vm_compute; reflexivity).
  split; [exact Hc|]. split; [exact Hni|]. split; [exact Hlk|].
  destruct (setHead_pushes_new_node demo_ab_spare _ 4%positive Hc Hni Hlk) as
    (s' & HS & _ & Ho & _).
  exists s'. split; [exact HS|exact Ho].
Defined.

Lemma evict_removes_exactly_the_node_witness :
  lru demo_ab [3%positive; 2%positive] ∧ 3%positive ∈ [3%positive; 2%positive] ∧
  ∃ s', evict (Some 3%positive) demo_ab = Done tt s' ∧
        table s' = delete "b" (table demo_ab) ∧ order s' = [2%positive] ∧
        size s' = 2.
Proof.
  assert (lru demo_ab [3%positive; 2%positive]) as Hl by compute_done.
  assert (3%positive ∈ [3%positive; 2%positive]) as Hin by compute_done.
  split; [exact Hl|]. split; [exact Hin|].
  destruct (evict_removes_exactly_the_node demo_ab _ 3%positive Hl Hin) as
    (k & s' & HE & Hk & _ & Ht & _ & _ & Ho & Hsz & _).
  assert (k = "b") as -> by (vm_compute in Hk; by injection Hk).
  exists s'. split_and!; [exact HE|exact Ht|exact Ho|exact Hsz].
Defined.

(** ** Missing keys, deletion and clearing *)

Lemma Delete_present s k a :
  WF s → table s !! k = Some a →
  ∃ s', Delete k s = Done true s' ∧ WF s' ∧
        table s' = delete k (table s) ∧
        order s' = filter (λ b, b ≠ a) (order s) ∧
        size s' = size s - 1 ∧ config s' = config s ∧
        same_payload (heap s) (heap s').
Proof.
  intros HWF Hk. pose proof HWF as [_ Hm].
  destruct (WF_lookup _ _ _ HWF Hk) as [Hin _].
  destruct (WF_split _ _ HWF Hin) as (l1 & l2 & Ho & Hl & Hf).
  destruct (Delete_hit s l1 a l2 k Hl Hm Hk) as
    (s' & HD & (Hl' & Hsp & Hcfg & Hsz & Ht) & Hm').
  destruct (lru_WF _ _ Hl' Hm') as [HWF' Ho'].
  exists s'. split_and!; try done. by rewrite Ho', Hf.
Qed.

(** X5: A key that is not in the table is no error: on any engine whose
    mutex is free, [Get] returns the nil slice with [false], [Delete]
    returns [false], and both leave the engine exactly as it was. *)
Theorem missing_key_changes_nothing s now k :
  mutex s = false → table s !! k = None →
  Get now k s = Done ([], false) s ∧ Delete k s = Done false s.
Proof. intros Hm Hk. split; [by apply Get_miss|by apply Delete_miss]. Qed.

Lemma missing_key_changes_nothing_witness :
  mutex demo_ab = false ∧ table demo_ab !! "z" = None ∧
  Get 5 "z" demo_ab = Done ([], false) demo_ab ∧
  Delete "z" demo_ab = Done false demo_ab.
Proof.
  split; [reflexivity|]. split; [reflexivity|].
  exact (missing_key_changes_nothing demo_ab 5 "z" eq_refl eq_refl).
Defined.

(** X6: [Delete] never looks at the expiry (it reads no clock): a present
    key goes from the table and from the recency order, the count drops by
    one, the other entries keep their place and content, and [true] is
    returned. *)
Theorem Delete_removes_present_key s k a :
  WF s → table s !! k = Some a →
  ∃ s', Delete k s = Done true s' ∧ WF s' ∧
        table s' = delete k (table s) ∧
        order s' = filter (λ b, b ≠ a) (order s) ∧
        Size s' = Done (size s - 1) s' ∧ config s' = config s ∧
        same_payload (heap s) (heap s').
Proof.
  intros HWF Hk.
  destruct (Delete_present s k a HWF Hk) as
    (s' & HD & HWF' & Ht & Ho & Hsz & Hcfg & Hsp).
  exists s'. split_and!; try done. unfold Size, gets. by rewrite Hsz.
Qed.

Lemma Delete_removes_present_key_witness :
  WF demo_ab ∧ table demo_ab !! "b" = Some 3%positive ∧
  ∃ s', Delete "b" demo_ab = Done true s' ∧ order s' = [2%positive] ∧
        Size s' = Done 1 s'.
Proof.
  assert (WF demo_ab) as HWF by compute_done.
  split; [exact HWF|]. split; [reflexivity|].
  destruct (Delete_removes_present_key demo_ab "b" 3%positive HWF eq_refl) as
    (s' & HD & _ & _ & Ho & HS & _).
  exists s'. split_and!; [exact HD|exact Ho|exact HS].
Defined.

(** X7: Whatever [Delete] returned, the key is gone afterwards: [Delete]
    returns [true] exactly when the key was there, and a second [Delete] or
    a [Get] of the same key misses and changes nothing. *)
Theorem Delete_leaves_key_absent s k r s' :
  WF s → Delete k s = Done r s' →
  WF s' ∧ r = bool_decide (is_Some (table s !! k)) ∧ table s' !! k = None ∧
  Delete k s' = Done false s' ∧ ∀ now, Get now k s' = Done ([], false) s'.
Proof.
  intros HWF HD.
  assert (WF s' ∧ r = bool_decide (is_Some (table s !! k)) ∧
          table s' !! k = None) as (HWF' & Hr & Hk').
  { destruct (table s !! k) as [a|] eqn:Hk.
    - destruct (Delete_present s k a HWF Hk) as (s1 & HD1 & HWF1 & Ht & _).
      rewrite HD in HD1. injection HD1 as -> ->.
      split_and!; [done|done|]. rewrite Ht. apply lookup_delete_eq.
    - rewrite Delete_miss in HD by (done || apply HWF).
      injection HD as <- <-. by split_and!. }
  pose proof HWF' as [_ Hm'].
  split_and!; try done; [by apply Delete_miss|]. intros now. by apply Get_miss.
Qed.

Lemma Delete_leaves_key_absent_witness :
  WF demo_ab ∧
  Delete "a" demo_ab = Done true (after (Delete "a") demo_ab) ∧
  Delete "a" (after (Delete "a") demo_ab)
    = Done false (after (Delete "a") demo_ab).
Proof.
  assert (WF demo_ab) as HWF by compute_done.
  assert (Delete "a" demo_ab = Done true (after (Delete "a") demo_ab)) as HD
    by (vm_compute; reflexivity).
  split; [exact HWF|]. split; [exact HD|].
  exact (proj1 (proj2 (proj2 (proj2
    (Delete_leaves_key_absent demo_ab "a" true _ HWF HD))))).
Defined.

(** X8: [Clear], given fuel for one round of its loop per node, empties the
    engine: no key in the table, no node on the list, [Size] zero, the
    configuration kept; afterwards every [Get] and every [Delete] misses. *)
Theorem Clear_empties_engine s fuel :
  WF s → (length (order s) ≤ fuel)%nat →
  ∃ s', Clear fuel s = Done tt s' ∧ WF s' ∧ table s' = ∅ ∧ order s' = [] ∧
        head s' = None ∧ tail s' = None ∧
        Size s' = Done 0 s' ∧ config s' = config s ∧
        (∀ now k, Get now k s' = Done ([], false) s') ∧
        (∀ k, Delete k s' = Done false s').
Proof.
  intros [Hl Hm] Hfuel.
  destruct (Clear_spec s (order s) fuel Hl Hm Hfuel) as
    (s' & HC & Hl' & Hm' & Ht & Hh & Htl & Hsz & Hcfg).
  destruct (lru_WF _ _ Hl' Hm') as [HWF' Ho'].
  exists s'. split_and!; try done.
  - unfold Size, gets. by rewrite Hsz.
  - intros now k. apply Get_miss; [done|]. by rewrite Ht.
  - intros k. apply Delete_miss; [done|]. by rewrite Ht.
Qed.

Lemma Clear_empties_engine_witness :
  WF demo_ab ∧ (length (order demo_ab) ≤ 2)%nat ∧
  ∃ s', Clear 2 demo_ab = Done tt s' ∧ table s' = ∅ ∧ Size s' = Done 0 s'.
Proof.
  assert (WF demo_ab) as HWF by compute_done.
  assert (length (order demo_ab) ≤ 2)%nat as Hf by (vm_compute; lia).
  split; [exact HWF|]. split; [exact Hf|].
  destruct (Clear_empties_engine demo_ab 2 HWF Hf) as
    (s' & HC & _ & Ht & _ & _ & _ & HS & _).
  exists s'. split_and!; [exact HC|exact Ht|exact HS].
Defined.

Lemma WF_empty_table s :
  WF s → table s = ∅ → order s = [] ∧ head s = None ∧ size s = 0.
Proof.
  intros HWF Ht. destruct (WF_sizes s HWF) as [Hsz Hlen].
  rewrite Ht, map_size_empty in Hsz.
  assert (order s = []) as Ho by (apply length_zero_iff_nil; lia).
  destruct HWF as [((_ & Hh & _) & _) _]. rewrite Ho in Hh. done.
Qed.

(** X9: [Clear] on an engine that holds nothing is a no-op: its loop is not
    entered (so any fuel will do) and the engine is left exactly as it was. *)
Theorem Clear_on_empty_engine_is_noop s fuel :
  WF s → table s = ∅ → Clear fuel s = Done tt s.
Proof.
  intros HWF Ht. destruct (WF_empty_table s HWF Ht) as (_ & Hh & Hsz).
  destruct HWF as [_ Hm].
  unfold Clear, locked, bind, Lock. rewrite Hm.
  assert (evict_all fuel (with_mutex true s) = Done tt (with_mutex true s))
    as ->.
  { destruct fuel; simpl; unfold bind, gets; simpl; by rewrite Hh. }
  unfold modify, Unlock, ret. simpl.
  destruct s; simpl in *; by subst.
Qed.

Lemma Clear_on_empty_engine_is_noop_witness :
  WF (empty_storage zero_cfg) ∧ table (empty_storage zero_cfg) = ∅ ∧
  Clear 0 (empty_storage zero_cfg) = Done tt (empty_storage zero_cfg).
Proof.
  assert (WF (empty_storage zero_cfg)) as HWF by compute_done.
  split; [exact HWF|]. split; [reflexivity|].
  exact (Clear_on_empty_engine_is_noop _ 0%nat HWF eq_refl).
Defined.

(** ** Writing a new key *)

Lemma indexed_iff s l k a :
  indexed s l →
  table s !! k = Some a ↔ a ∈ l ∧ key <$> heap s !! a = Some k.
Proof.
  intros Hi. split; [by apply indexed_lookup|].
  intros [Hin Hk]. destruct (indexed_elem _ _ _ Hi Hin) as (k' & Hk' & Ht).
  congruence.
Qed.

(** The table after a new key went in at [a] in front of the nodes [l'] that
    were kept. *)
Lemma table_after_new_key s s' k a l' :
  WF s → WF s' → order s' = a :: l' → l' ⊆ order s → heap s !! a = None →
  table s' !! k = Some a →
  (∀ b, b ≠ a → payload (heap s') b = payload (heap s) b) →
  ∀ k' b, k' ≠ k →
    table s' !! k' = Some b ↔ table s !! k' = Some b ∧ b ∈ l'.
Proof.
  intros HWF HWF' Ho Hsub Ha Hk Hpb k' b Hne.
  pose proof HWF as [(_ & Hi & _) _].
  pose proof HWF' as [((Hnd' & _) & Hi' & _) _].
  rewrite Ho in Hnd', Hi'. apply NoDup_cons in Hnd' as [Hal' _].
  assert (∀ c, c ∈ l' → c ≠ a) as Hca by (intros c Hc ->; done).
  rewrite (indexed_iff s' _ k' b Hi'), (indexed_iff s _ k' b Hi).
  split.
  - intros [Hin Hkb]. apply elem_of_cons in Hin as [->|Hin].
    + exfalso. apply (indexed_lookup _ _ _ _ Hi') in Hk as [_ Hk]. congruence.
    + rewrite (payload_key_eq _ _ _ (Hpb b (Hca b Hin))) in Hkb.
      split; [split|]; [by apply Hsub|done|done].
  - intros [[Hin Hkb] Hb]. split; [by apply list_elem_of_further|].
    by rewrite (payload_key_eq _ _ _ (Hpb b (Hca b Hb))).
Qed.

(** X10: Below capacity a new key costs nothing: [Put] does not enter its
    eviction loop (any fuel will do), allocates a node not used before, puts
    it at the head in front of the unchanged list, adds the key to the
    table, raises the count by one and returns [false]; the other entries
    are as they were. *)
Theorem Put_below_capacity_evicts_nothing s fuel now k d :
  WF s → table s !! k = None → size s < Capacity (config s) →
  ∃ a s', Put fuel now k d s = Done false s' ∧ WF s' ∧
        heap s !! a = None ∧ table s' = <[k := a]> (table s) ∧
        order s' = a :: order s ∧ size s' = size s + 1 ∧
        config s' = config s ∧
        payload (heap s') a = Some (k, d, now + Ttl (config s)) ∧
        ∀ b, b ≠ a → payload (heap s') b = payload (heap s) b.
Proof.
  intros HWF Hk Hlt. destruct (WF_sizes s HWF) as [_ Hsz].
  assert (take (Z.to_nat (Capacity (config s) - 1)) (order s) = order s) as Htk
    by (apply take_ge; lia).
  destruct (Put_absent s fuel now k d HWF Hk) as
    (a & s' & HP & HWF' & Ho & Hcfg & Ha & Htab & Hpa & Hpb); [lia|lia|].
  rewrite Htk in Ho.
  exists a, s'. split_and!; try done.
  - apply map_eq. intros k'. destruct (decide (k' = k)) as [->|Hne].
    + by rewrite lookup_insert_eq.
    + rewrite lookup_insert_ne by done. apply option_eq. intros b.
      rewrite (table_after_new_key s s' k a (order s)) by done.
      split; [tauto|]. intros Hb. split; [done|].
      by destruct (WF_lookup _ _ _ HWF Hb).
  - destruct (WF_sizes s' HWF') as [_ ->]. rewrite Ho, Hsz. simpl length. lia.
Qed.

Lemma Put_below_capacity_evicts_nothing_witness :
  WF demo_a ∧ table demo_a !! "b" = None ∧ size demo_a < Capacity (config demo_a) ∧
  ∃ a s', Put 0 1 "b" [Byte.x02] demo_a = Done false s' ∧
          order s' = a :: order demo_a ∧ size s' = 2.
Proof.
  assert (WF demo_a) as HWF by compute_done.
  assert (size demo_a < Capacity (config demo_a)) as Hlt
    by (vm_compute; reflexivity).
  split; [exact HWF|]. split; [reflexivity|]. split; [exact Hlt|].
  destruct (Put_below_capacity_evicts_nothing demo_a 0 1 "b" [Byte.x02]
              HWF eq_refl Hlt) as (a & s' & HP & _ & _ & _ & Ho & Hsz & _).
  exists a, s'. split_and!; [exact HP|exact Ho|exact Hsz].
Defined.

(** X11: At capacity a new key costs exactly the tail: one round of the
    eviction loop is enough, the key of the tail node is the only one to
    leave the table, the other nodes keep their order behind the new head,
    and the count stays at the capacity. *)
Theorem Put_at_capacity_evicts_only_the_tail s fuel now k d t kt :
  WF s → table s !! k = None →
  1 ≤ Capacity (config s) → size s = Capacity (config s) →
  list.last (order s) = Some t → key <$> heap s !! t = Some kt →
  ∃ a s', Put (S fuel) now k d s = Done false s' ∧ WF s' ∧
        heap s !! a = None ∧
        table s' = <[k := a]> (delete kt (table s)) ∧
        order s' = a :: removelast (order s) ∧
        size s' = Capacity (config s) ∧ config s' = config s ∧
        payload (heap s') a = Some (k, d, now + Ttl (config s)) ∧
        ∀ b, b ≠ a → payload (heap s') b = payload (heap s) b.
Proof.
  intros HWF Hk Hcap Hfull Hlast Hkt. destruct (WF_sizes s HWF) as [_ Hsz].
  apply last_Some in Hlast as [l' Hl'].
  assert (take (Z.to_nat (Capacity (config s) - 1)) (order s) = l') as Htk.
  { rewrite Hl', length_app in *. simpl in Hsz.
    rewrite take_app_length'; [done|lia]. }
  destruct (Put_absent s (S fuel) now k d HWF Hk) as
    (a & s' & HP & HWF' & Ho & Hcfg & Ha & Htab & Hpa & Hpb); [lia|lia|].
  rewrite Htk in Ho.
  pose proof HWF as [((Hnd & _) & Hi & _) _].
  assert (t ∈ order s) as Hin.
  { rewrite Hl'. apply elem_of_app. right. apply list_elem_of_here. }
  assert (table s !! kt = Some t) as Htt by (by apply (indexed_iff s (order s))).
  assert (∀ b, b ∈ order s → b ∈ l' ↔ b ≠ t) as Hl't.
  { intros b. rewrite Hl' in Hnd |- *. apply NoDup_app in Hnd as (_ & Hd & _).
    rewrite elem_of_app, list_elem_of_singleton. intros [Hb| ->].
    - split; [|done]. intros _ ->. apply (Hd t Hb), list_elem_of_here.
    - split; [|done]. intros Hb. exfalso. apply (Hd t Hb), list_elem_of_here. }
  exists a, s'. split_and!; try done.
  - apply map_eq. intros k'. destruct (decide (k' = k)) as [->|Hne].
    + by rewrite lookup_insert_eq.
    + rewrite lookup_insert_ne by done. apply option_eq. intros b.
      rewrite (table_after_new_key s s' k a l'); try done.
      2:{ rewrite Hl'. intros x Hx. apply elem_of_app. by left. }
      rewrite lookup_delete_Some. split.
      * intros [Hb Hbl]. split; [|done]. intros <-.
        assert (b = t) as -> by congruence.
        by apply (Hl't t Hin) in Hbl.
      * intros [Hkk Hb]. split; [done|].
        destruct (WF_lookup _ _ _ HWF Hb) as [Hbo _].
        apply (Hl't b Hbo). intros ->.
        apply (indexed_lookup _ _ _ _ Hi) in Hb as [_ Hb]. congruence.
  - rewrite Ho, Hl'. by rewrite removelast_last.
  - destruct (WF_sizes s' HWF') as [_ ->]. rewrite Ho. simpl length.
    rewrite <-Hfull, Hsz, Hl', length_app. simpl. lia.
Qed.

Lemma Put_at_capacity_evicts_only_the_tail_witness :
  WF demo_ab ∧ table demo_ab !! "c" = None ∧ 1 ≤ Capacity (config demo_ab) ∧
  size demo_ab = Capacity (config demo_ab) ∧
  list.last (order demo_ab) = Some 2%positive ∧
  key <$> heap demo_ab !! 2%positive = Some "a" ∧
  ∃ a s', Put 1 2 "c" [Byte.x03] demo_ab = Done false s' ∧
          table s' = <[ "c" := a ]> (delete "a" (table demo_ab)) ∧
          size s' = 2.
Proof.
  assert (WF demo_ab) as HWF by compute_done.
  assert (1 ≤ Capacity (config demo_ab)) as Hcap by (vm_compute; discriminate).
  split; [exact HWF|]. split; [reflexivity|]. split; [exact Hcap|].
  split; [reflexivity|]. split; [reflexivity|]. split; [reflexivity|].
  destruct (Put_at_capacity_evicts_only_the_tail demo_ab 0 2 "c" [Byte.x03]
              2%positive "a" HWF eq_refl Hcap eq_refl eq_refl eq_refl) as
    (a & s' & HP & _ & _ & Ht & _ & Hsz & _).
  exists a, s'. split_and!; [exact HP|exact Ht|exact Hsz].
Defined.

(** ** The shape of the list *)



(** ** Sweeping *)

Lemma RemoveExpired_unfold clock s :
  RemoveExpired clock s
  = RemoveExpired_range clock 0 (map_to_list (table s)) 0 s.
Proof. reflexivity. Qed.

Lemma swept_sound h clock kvs : ∀ i b,
  b ∈ swept h clock i kvs →
  b ∈ kvs.*2 ∧ ∃ j, is_expired h (clock j) b = true.
Proof.
  induction kvs as [|[k a] kvs IH]; intros i b; simpl.
  - by intros ?%elem_of_nil.
  - destruct (is_expired h (clock i) a) eqn:E.
    + intros [->|Hb]%elem_of_cons.
      * split; [apply list_elem_of_here|by exists i].
      * destruct (IH _ _ Hb) as [? ?]. split; [by apply list_elem_of_further|done].
    + intros Hb. destruct (IH _ _ Hb) as [? ?].
      split; [by apply list_elem_of_further|done].
Qed.

Lemma swept_complete h clock kvs : ∀ i b,
  b ∈ kvs.*2 → (∀ j, is_expired h (clock j) b = true) →
  b ∈ swept h clock i kvs.
Proof.
  induction kvs as [|[k a] kvs IH]; intros i b; simpl.
  - by intros ?%elem_of_nil.
  - intros [->|Hb]%elem_of_cons Hall.
    + rewrite Hall. apply list_elem_of_here.
    + destruct (is_expired h (clock i) a);
        [apply list_elem_of_further|]; by apply IH.
Qed.

(** X13: [RemoveExpired] reads the clock anew at every entry it visits.
    Whatever the readings, it returns the number of entries it deleted,
    deletes nothing else and adds nothing; an entry whose expiry lies before
    every reading is deleted, and one whose expiry lies before none is kept. *)
Theorem RemoveExpired_with_moving_clock s clock :
  WF s →
  ∃ cnt s', RemoveExpired clock s = Done cnt s' ∧ WF s' ∧
    cnt = Z.of_nat (base.size (table s)) - Z.of_nat (base.size (table s')) ∧
    Size s' = Done (size s - cnt) s' ∧ 0 ≤ cnt ∧
    table s' ⊆ table s ∧ config s' = config s ∧
    same_payload (heap s) (heap s') ∧
    ∀ k a nd, table s !! k = Some a → heap s !! a = Some nd →
      ((∀ j, ttl nd < clock j) → table s' !! k = None) ∧
      ((∀ j, clock j ≤ ttl nd) → table s' !! k = Some a).
Proof.
  intros HWF. pose proof HWF as [Hl Hm].
  destruct (RemoveExpired_any_clock clock s (order s) (map_to_list (table s))
              Hl Hm) as (cnt & s' & HR & Hl' & Hm' & Hsp & Hcfg & Hcnt & Hsz);
    [done|].
  destruct (lru_WF _ _ Hl' Hm') as [HWF' Ho'].
  set (P := λ b : addr, b ∉ swept (heap s) clock 0 (map_to_list (table s))).
  assert (∀ k a, table s' !! k = Some a ↔ table s !! k = Some a ∧ P a) as Htab.
  { intros k a. apply (table_of_filtered s s' (order s) P); try done.
    - by destruct Hl as (_ & ? & _).
    - by destruct Hl' as (_ & ? & _). }
  exists cnt, s'. split_and!; try done.
  - destruct (WF_sizes s HWF) as [<- _].
    destruct (WF_sizes s' HWF') as [<- _]. lia.
  - unfold Size, gets. by rewrite Hsz.
  - apply map_subseteq_spec. intros k a Hk. by apply Htab in Hk as [? _].
  - intros k a nd Hk Ha. split.
    + intros Hall. destruct (table s' !! k) as [b|] eqn:E; [|done]. exfalso.
      apply Htab in E as [Hb HP]. assert (b = a) as -> by congruence.
      apply HP, swept_complete.
      * apply list_elem_of_fmap. exists (k, a). split; [done|].
        by apply elem_of_map_to_list.
      * intros j. unfold is_expired. rewrite Ha. apply Z.ltb_lt, Hall.
    + intros Hall. apply Htab. split; [done|].
      intros (_ & j & Hj)%swept_sound. unfold is_expired in Hj.
      rewrite Ha in Hj. apply Z.ltb_lt in Hj. specialize (Hall j). lia.
Qed.

Lemma RemoveExpired_with_moving_clock_witness :
  WF demo_ab ∧
  ∃ cnt s', RemoveExpired (λ i, 101 + Z.of_nat i) demo_ab = Done cnt s' ∧
            table s' !! "a" = None ∧ 0 ≤ cnt.
Proof.
  assert (WF demo_ab) as HWF by compute_done.
  split; [exact HWF|].
  destruct (RemoveExpired_with_moving_clock demo_ab (λ i, 101 + Z.of_nat i)
              HWF) as (cnt & s' & HR & _ & _ & _ & Hc & _ & _ & _ & Hk).
  exists cnt, s'. split; [exact HR|]. split; [|exact Hc].
  destruct (heap demo_ab !! 2%positive) as [nd|] eqn:E;
    [|vm_compute in E; discriminate E].
  apply (proj1 (Hk "a" 2%positive nd eq_refl E)).
  intros j. vm_compute in E. injection E as <-. simpl. lia.
Defined.

(** X14: A sweep leaves nothing for a second sweep that reads no later time:
    after [RemoveExpired] at one reading [now], a further [RemoveExpired]
    whose readings do not pass [now] deletes nothing, returns 0 and leaves
    the engine exactly as it was. *)
Theorem RemoveExpired_again_finds_nothing s now cnt s' clock :
  WF s → RemoveExpired (λ _, now) s = Done cnt s' → (∀ j, clock j ≤ now) →
  RemoveExpired clock s' = Done 0 s'.
Proof.
  intros HWF HR Hclock. pose proof HWF as [Hl Hm].
  destruct (RemoveExpired_kvs_spec now s (order s) (map_to_list (table s))
              Hl Hm) as (cnt0 & s0 & HR0 & Hl' & Hm' & Hsp & _); [done|].
  rewrite RemoveExpired_unfold, HR0 in HR. injection HR as -> ->.
  rewrite RemoveExpired_unfold. apply RemoveExpired_range_nothing_due.
  intros k a Hka%elem_of_map_to_list.
  destruct Hl' as (_ & Hi' & _).
  apply (indexed_lookup _ _ _ _ Hi') in Hka as [Hin Hkey].
  apply list_elem_of_filter in Hin as [Hne _].
  rewrite <-(is_expired_same_payload (heap s) (heap s')) in Hne by done.
  unfold is_expired in Hne.
  destruct (heap s' !! a) as [nd|]; [|done]. exists nd. split; [done|].
  intros j. apply Z.ltb_ge in Hne. specialize (Hclock j). lia.
Qed.

Lemma RemoveExpired_again_finds_nothing_witness :
  WF demo_ab ∧
  RemoveExpired (λ _, 101) demo_ab
    = Done 1 (after (RemoveExpired (λ _, 101)) demo_ab) ∧
  (∀ j : nat, (λ _, 101) j ≤ 101) ∧
  RemoveExpired (λ _, 101) (after (RemoveExpired (λ _, 101)) demo_ab)
    = Done 0 (after (RemoveExpired (λ _, 101)) demo_ab).
Proof.
  assert (WF demo_ab) as HWF by compute_done.
  assert (RemoveExpired (λ _, 101) demo_ab
          = Done 1 (after (RemoveExpired (λ _, 101)) demo_ab)) as HR
    by (vm_compute; reflexivity).
  assert (∀ j : nat, (λ _, 101) j ≤ 101) as Hc by (intros j; simpl; lia).
  split; [exact HWF|]. split; [exact HR|]. split; [exact Hc|].
  exact (RemoveExpired_again_finds_nothing demo_ab 101 1 _ (λ _, 101)
           HWF HR Hc).
Defined.

(** ** No call fails on an engine that was built by calls *)

(** X15: On every engine reached from a fresh one through the public
    methods, no call panics, blocks or follows a dangling pointer: [Get],
    [Delete] and [RemoveExpired] return, [Clear] returns after one round per
    node, and [Put] returns after at most one round of its eviction loop,
    provided the capacity is at least one or the key is already present. *)
Theorem reachable_engine_serves_every_call cfg os s :
  int64_range (Capacity cfg) →
  exec_ops os (empty_storage cfg) = Done tt s →
  (∀ now k, ∃ r s', Get now k s = Done r s') ∧
  (∀ k, ∃ r s', Delete k s = Done r s') ∧
  (∀ fuel, (length (order s) ≤ fuel)%nat → ∃ s', Clear fuel s = Done tt s') ∧
  (∀ clock, ∃ cnt s', RemoveExpired clock s = Done cnt s') ∧
  (∀ fuel now k d, is_Some (table s !! k) ∨ 1 ≤ Capacity cfg →
     ∃ r s', Put (S fuel) now k d s = Done r s').
Proof.
  intros Hcap Hrun.
  assert (steady (empty_storage cfg)) as H0.
  { split; [apply (lru_WF _ []); [by apply empty_storage_lru|done]|simpl; lia]. }
  destruct (exec_ops_steady os _ _ H0 Hrun) as [[HWF Hsz] Hcfg].
  simpl in Hcfg. pose proof HWF as [Hl Hm]. split_and!.
  - intros now k. destruct (table s !! k) as [a|] eqn:Hk.
    + destruct (WF_lookup _ _ _ HWF Hk) as (_ & nd & Ha & _).
      destruct (Get_present s now k a nd HWF Hk Ha) as [Hex Hlive].
      destruct (decide (ttl nd < now)) as [Hlt|Hge].
      * destruct (Hex Hlt) as (s' & HG & _). eauto.
      * rewrite Hlive by lia. eauto.
    + rewrite Get_miss by done. eauto.
  - intros k. destruct (table s !! k) as [a|] eqn:Hk.
    + destruct (Delete_present s k a HWF Hk) as (s' & HD & _). eauto.
    + rewrite Delete_miss by done. eauto.
  - intros fuel Hfuel.
    destruct (Clear_spec s (order s) fuel Hl Hm Hfuel) as (s' & HC & _). eauto.
  - intros clock.
    destruct (RemoveExpired_any_clock clock s (order s)
                (map_to_list (table s)) Hl Hm) as (cnt & s' & HR & _); [done|].
    exists cnt, s'. by rewrite RemoveExpired_unfold.
  - intros fuel now k d Hor. destruct (table s !! k) as [a|] eqn:Hk.
    + destruct (Put_present s (S fuel) now k d a HWF Hk) as (s' & HP & _).
      eauto.
    + destruct Hor as [[? [=]]|Hc]. rewrite <-Hcfg in Hc.
      destruct (WF_sizes s HWF) as [_ Hlen].
      destruct (Put_absent s (S fuel) now k d HWF Hk Hc) as
        (a & s' & HP & _); [lia|]. eauto.
Qed.

Lemma reachable_engine_serves_every_call_witness :
  int64_range (Capacity demo_cfg) ∧
  exec_ops [OpPut 1 0 "a" [Byte.x01]; OpPut 1 1 "b" [Byte.x02]]
    (empty_storage demo_cfg) = Done tt demo_ab ∧
  ∃ r s', Put 1 2 "c" [Byte.x03] demo_ab = Done r s'.
Proof.
  assert (int64_range (Capacity demo_cfg)) as Hcap by compute_done.
  assert (exec_ops [OpPut 1 0 "a" [Byte.x01]; OpPut 1 1 "b" [Byte.x02]]
            (empty_storage demo_cfg) = Done tt demo_ab) as Hrun
    by (vm_compute; reflexivity).
  split; [exact Hcap|]. split; [exact Hrun|].
  destruct (reachable_engine_serves_every_call demo_cfg _ _ Hcap Hrun) as
    (_ & _ & _ & _ & HP).
  apply (HP 0%nat 2 "c" [Byte.x03]). right. vm_compute. discriminate.
Defined.

(** X16: With a capacity of zero or less an engine never holds anything: in
    every state it reaches the table and the list are empty and [Size] is
    zero, and every [Put] ends in the nil dereference of [evict]. *)
Theorem engine_without_capacity_stays_empty cfg os s :
  int64_range (Capacity cfg) → Capacity cfg ≤ 0 →
  exec_ops os (empty_storage cfg) = Done tt s →
  table s = ∅ ∧ order s = [] ∧ Size s = Done 0 s ∧
  ∀ fuel now k d, Put (S fuel) now k d s = Panic.
Proof.
  intros Hr Hcap Hrun.
  assert (steady (empty_storage cfg)) as H0.
  { split; [apply (lru_WF _ []); [by apply empty_storage_lru|done]|simpl; lia]. }
  destruct (exec_ops_steady os _ _ H0 Hrun) as [[HWF Hsz] Hcfg].
  simpl in Hcfg. rewrite Hcfg in Hsz. destruct (WF_sizes s HWF) as [Ht Ho].
  assert (size s = 0) as Hz by lia.
  assert (order s = []) as Hnil by (apply length_zero_iff_nil; lia).
  split_and!; [|done| |].
  - apply map_size_empty_inv. lia.
  - unfold Size, gets. by rewrite Hz.
  - intros fuel now k d. apply Put_new_key_nil_tail; [done|done|].
    by rewrite Hcfg.
Qed.

Lemma engine_without_capacity_stays_empty_witness :
  int64_range (Capacity zero_cfg) ∧ Capacity zero_cfg ≤ 0 ∧
  exec_ops [OpGet 0 "a"; OpDelete "a"; OpClear 0; OpRemoveExpired (λ _, 5)]
    (empty_storage zero_cfg) = Done tt (empty_storage zero_cfg) ∧
  Put 1 0 "a" [Byte.x01] (empty_storage zero_cfg) = Panic.
Proof.
  assert (int64_range (Capacity zero_cfg)) as Hr by compute_done.
  assert (Capacity zero_cfg ≤ 0) as Hcap by (vm_compute; discriminate).
  assert (exec_ops [OpGet 0 "a"; OpDelete "a"; OpClear 0;
                    OpRemoveExpired (λ _, 5)]
            (empty_storage zero_cfg) = Done tt (empty_storage zero_cfg))
    as Hrun by (vm_compute; reflexivity).
  split; [exact Hr|]. split; [exact Hcap|]. split; [exact Hrun|].
  destruct (engine_without_capacity_stays_empty zero_cfg _ _ Hr Hcap Hrun) as
    (_ & _ & _ & HP).
  exact (HP 0%nat 0 "a" [Byte.x01]).
Defined.
